(** * Gift-wrapping convex hull of [jarvis_march-Rcpp.cpp]

    A shallow embedding of [src/src/jarvis_march-Rcpp.cpp] and the properties
    of it that the specification states.

    Modelling choices.
    - A C++ [double] is a primitive IEEE 754 binary64 [float]; every
      arithmetic operation is rounded on its own and comparisons are the
      IEEE ones ([<?] and [=?] are false on NaN, [-0 =? 0] is true).
    - A [std::vector] is a [list]; [push_back] appends at the end, and an
      [int] index is a [nat] (vectors are far shorter than 2^31 elements).
    - The hidden state of the C library's generator is a value of an
      arbitrary type [rng], read and advanced by [rand] and overwritten by
      [srand]; nothing is assumed of the numbers it produces.
    - The two [while] loops carry a [fuel]: [None] means the fuel ran out.
    - The messages written to [std::cout] on fewer than three points are
      left out. *)

From Stdlib Require Import List Bool Arith ZArith Lia Permutation.
From Stdlib Require Import Floats.
Import ListNotations.

Local Open Scope float_scope.
Local Open Scope nat_scope.

(** ** Data model *)

(** [struct point]. *)
Record point : Set := Point { x : float; y : float }.

(** [struct triplet_of_points]: the two flags and the two products. *)
Record triplet_of_points : Set := Triplet {
  right_turn : bool;
  collinearity : bool;
  determinent : float;
  dot_product : float
}.

(** The constructor [triplet_of_points(p1, p2, p3)]; the flags start from
    their brace initialisers, [false]. *)
Definition new_triplet (p1 p2 p3 : point) : triplet_of_points :=
  let a := Point (x p1 - x p2) (y p1 - y p2) in
  let b := Point (x p3 - x p2) (y p3 - y p2) in
  {| right_turn := false;
     collinearity := false;
     determinent := (x a * y b - x b * y a)%float;
     dot_product := (x a * x b + y a * y b)%float |}.

(** [triplet_of_points::find_orientation]: an [if / else if] chain of four
    tests, with no final [else]. *)
Definition find_orientation (t : triplet_of_points) : triplet_of_points :=
  let set r c :=
    {| right_turn := r; collinearity := c;
       determinent := determinent t; dot_product := dot_product t |} in
  if (0 <? determinent t)%float then set true false
  else if (determinent t =? 0)%float && (dot_product t <? 0)%float
  then set true true
  else if (determinent t =? 0)%float && (0 <? dot_product t)%float
  then set false true
  else if (determinent t <? 0)%float then set false false
  else t.

(** ** [find_leftmost_point] *)

(** The [for] loop of [find_leftmost_point], from index [p] on. *)
Fixpoint leftmost_loop (rest : list point) (p : nat)
    (leftmost_val_update : float) (leftmost_index_update : nat) : nat :=
  match rest with
  | [] => leftmost_index_update
  | pt :: rest' =>
      if (x pt <? leftmost_val_update)%float
      then leftmost_loop rest' (S p) (x pt) p
      else leftmost_loop rest' (S p) leftmost_val_update leftmost_index_update
  end.

Definition find_leftmost_point (leftmost_val : float) (points : list point)
    : nat :=
  leftmost_loop points 0 leftmost_val 0.

(** [std::find(first, last, v) != last] on a range given as a list. *)
Definition found (v : nat) (range : list nat) : bool :=
  existsb (Nat.eqb v) range.

(** [points[i]]; every index the program uses is below [points.size()]. *)
Definition at_index (points : list point) (i : nat) : point :=
  nth i points (Point 0 0).

Section RandomSource.

(** The C library's generator: its state, [rand()] and [srand(seed)]. *)
Variable rng : Type.
Variable rand : rng -> Z * rng.
Variable srand : Z -> rng.

(** ** [find_new_point] *)

(** [rand() % points.size()] until the draw is not in [exceptions]. *)
Fixpoint find_new_point (fuel : nat) (points : list point)
    (exceptions : list nat) (g : rng) : option (nat * rng) :=
  match fuel with
  | 0 => None
  | S fuel' =>
      let (r, g') := rand g in
      let new_point := Z.to_nat (r mod Z.of_nat (length points)) in
      if negb (found new_point exceptions) then Some (new_point, g')
      else find_new_point fuel' points exceptions g'
  end.

(** ** [find_convex_hull] *)

(** The body of the [for (test_point ...)] loop: the state is the current
    [candidate] and the flag [all_points_collinear]. *)
Definition test_one (points : list point) (convex_hull : list nat)
    (end_of_hull_index : nat) (st : nat * bool) (test_point : nat)
    : nat * bool :=
  let (candidate, all_points_collinear) := st in
  if negb (test_point =? candidate) && negb (test_point =? end_of_hull_index)
  then
    let triplet :=
      find_orientation
        (new_triplet (at_index points end_of_hull_index)
                     (at_index points test_point)
                     (at_index points candidate)) in
    let candidate :=
      if right_turn triplet then test_point else candidate in
    let candidate :=
      if collinearity triplet
         && found candidate convex_hull
         && negb (found test_point (tl convex_hull))
      then test_point else candidate in
    let all_points_collinear :=
      if negb (collinearity triplet) then false else all_points_collinear in
    (candidate, all_points_collinear)
  else st.

(** The whole [for] loop over [test_point = 0 .. points.size()-1]. *)
Definition refine_candidate (points : list point) (convex_hull : list nat)
    (end_of_hull_index : nat) (st : nat * bool) : nat * bool :=
  fold_left (test_one points convex_hull end_of_hull_index)
            (seq 0 (length points)) st.

(** What follows the [for] loop in one round of the main [while] loop:
    [push_back(candidate)], the closure test and the conditional [pop_back].
    The boolean says whether the hull is complete. *)
Definition update_hull (convex_hull : list nat) (candidate : nat)
    : list nat * bool :=
  let convex_hull := convex_hull ++ [candidate] in
  if found (last convex_hull 0) (removelast convex_hull)
  then
    if hd 0 convex_hull =? last convex_hull 0
    then (removelast convex_hull, true)
    else (convex_hull, true)
  else (convex_hull, false).

(** The main [while (not_complete_hull == true)] loop. *)
Fixpoint hull_loop (fuel : nat) (points : list point)
    (convex_hull : list nat) (all_points_collinear : bool) (g : rng)
    : option (list nat * bool * rng) :=
  match fuel with
  | 0 => None
  | S fuel' =>
      let end_of_hull_index := last convex_hull 0 in
      let exceptions := [end_of_hull_index] in
      match find_new_point fuel' points exceptions g with
      | None => None
      | Some (candidate, g') =>
          let (candidate, all_points_collinear) :=
            refine_candidate points convex_hull end_of_hull_index
                             (candidate, all_points_collinear) in
          let (convex_hull, complete) := update_hull convex_hull candidate in
          if complete then Some (convex_hull, all_points_collinear, g')
          else hull_loop fuel' points convex_hull all_points_collinear g'
      end
  end.

(** The loop of the degenerate branch, from index [i] on: the first index is
    emitted, a later one while it is not found in
    [convex_hull.begin() .. convex_hull.begin()+(i-1)], and the loop breaks
    at the first one that is. *)
Fixpoint rebuild_loop (points : list point) (convex_hull : list nat)
    (i todo : nat) (convex_hull_points : list point) : list point :=
  match todo with
  | 0 => convex_hull_points
  | S todo' =>
      if (i =? 0) || negb (found (nth i convex_hull 0)
                                  (firstn (i - 1) convex_hull))
      then rebuild_loop points convex_hull (S i) todo'
             (convex_hull_points ++ [at_index points (nth i convex_hull 0)])
      else convex_hull_points
  end.

(** Output assembly after the main loop. *)
Definition hull_points (points : list point) (convex_hull : list nat)
    (all_points_collinear : bool) : list point :=
  if negb all_points_collinear
  then map (at_index points) convex_hull
  else rebuild_loop points convex_hull 0 (length convex_hull) [].

(** The general branch (three points or more) up to the end of the main
    loop: the index walk, the flag and the generator's state. *)
Definition hull_walk (fuel : nat) (points : list point) (g : rng)
    : option (list nat * bool * rng) :=
  let leftmost_index := find_leftmost_point infinity points in
  hull_loop fuel points [leftmost_index] true g.

Definition find_convex_hull (fuel : nat) (points : list point) (g : rng)
    : option (list point * rng) :=
  match length points with
  | 0 => Some ([], g)
  | 1 => Some ([at_index points 0], g)
  | 2 =>
      let leftmost_index := find_leftmost_point infinity points in
      let rightmost_index := if leftmost_index =? 0 then 1 else 0 in
      Some ([at_index points leftmost_index; at_index points rightmost_index],
            g)
  | _ =>
      match hull_walk fuel points g with
      | None => None
      | Some (convex_hull, all_points_collinear, g') =>
          Some (hull_points points convex_hull all_points_collinear, g')
      end
  end.

(** ** [jarvis_march] *)

(** How a call of the entry point ends. [OutOfBounds] marks a call whose
    first loop reads [y[i]] past the end of [y]: the read goes through the
    unchecked [operator[]], so the behaviour from there on is undefined in
    C++ (the compiled program may read on and return); the model stops at
    the read and says nothing of what follows it. *)
Inductive outcome (A : Type) : Type :=
| Returns (a : A)
| OutOfFuel
| OutOfBounds.

(** The first loop of [jarvis_march]: [point(x[i], y[i])] for every index
    of [x]. *)
Fixpoint read_points (x_coords y_coords : list float) : option (list point) :=
  match x_coords, y_coords with
  | [], _ => Some []
  | _ :: _, [] => None
  | xi :: xs, yi :: ys =>
      match read_points xs ys with
      | Some points => Some (Point xi yi :: points)
      | None => None
      end
  end.

(** [jarvis_march(x, y)], from the generator's state [g] at the call to the
    returned [hull_x] and the state the call leaves. *)
Definition jarvis_march (fuel : nat) (x_coords y_coords : list float)
    (g : rng) : outcome (list float * rng) :=
  match read_points x_coords y_coords with
  | None => OutOfBounds _
  | Some points =>
      let g := srand 10 in
      match find_convex_hull fuel points g with
      | None => OutOfFuel _
      | Some (hull, g') => Returns _ (map x hull, g')
      end
  end.

End RandomSource.

Arguments find_new_point {rng} rand fuel points exceptions g.
Arguments hull_loop {rng} rand fuel points convex_hull all_points_collinear g.
Arguments hull_walk {rng} rand fuel points g.
Arguments find_convex_hull {rng} rand fuel points g.
Arguments jarvis_march {rng} rand srand fuel x_coords y_coords g.
Arguments Returns {A} a.
Arguments OutOfFuel {A}.
Arguments OutOfBounds {A}.

(** ** The pseudo-random stream *)

Section Draws.

Variable rng : Type.
Variable rand : rng -> Z * rng.

(** The generator's state after [k] calls of [rand()]. *)
Fixpoint advance (k : nat) (g : rng) : rng :=
  match k with
  | 0 => g
  | S k' => advance k' (snd (rand g))
  end.

(** The index [rand() % n] drawn by call number [k] (from 0) after [g]. *)
Definition draw (n : nat) (g : rng) (k : nat) : nat :=
  Z.to_nat (fst (rand (advance k g)) mod Z.of_nat n).

(** The model of the stream that termination rests on: whatever has been
    drawn so far, every index below [n] is drawn again later. *)
Definition fair (n : nat) (g : rng) : Prop :=
  forall k i, i < n -> exists j, draw n g (k + j) = i.

End Draws.

(** A generator that replays a given list of numbers (and then zeros). *)
Definition replay (script : list Z) : Z * list Z :=
  match script with
  | [] => (0%Z, [])
  | r :: script' => (r, script')
  end.

(** A generator that counts: it is fair for every number of points. *)
Definition counter (s : Z) : Z * Z := (s, (s + 1)%Z).

(** The generator of the GNU C library ([srand] and [rand] of glibc, the
    additive feedback generator of [random_r], type 3), given as one instance
    of the interface; the state is the window [r(i-31) .. r(i-1)]. *)
Module Glibc.

Definition state := list Z.

(** One step, [r(i) = r(i-31) + r(i-3)] modulo [2^32]. *)
Definition next (s : state) : Z * state :=
  let r := ((nth 0 s 0 + nth 28 s 0) mod 4294967296)%Z in
  (r, tl s ++ [r]).

(** [rand()] drops the least bit of the step's number. *)
Definition rand (s : state) : Z * state :=
  let (r, s') := next s in (Z.shiftr r 1, s').

(** The seeding recurrence, [16807 * r] modulo [2^31 - 1]. *)
Definition lcg (r : Z) : Z :=
  let word := (16807 * (r mod 127773) - 2836 * (r / 127773))%Z in
  if (word <? 0)%Z then (word + 2147483647)%Z else word.

Fixpoint lcg_table (k : nat) (r : Z) : list Z :=
  match k with
  | 0 => []
  | S k' => r :: lcg_table k' (lcg r)
  end.

Fixpoint discard (k : nat) (s : state) : state :=
  match k with
  | 0 => s
  | S k' => discard k' (snd (next s))
  end.

(** [srand(seed)]: the table [r(0) .. r(30)], then [r(31) .. r(33)] equal
    to [r(0) .. r(2)], then 310 numbers discarded. *)
Definition srand (seed : Z) : state :=
  let table := lcg_table 31 (if (seed =? 0)%Z then 1%Z else seed) in
  discard 310 (skipn 3 table ++ firstn 3 table).

End Glibc.

(** ** The index walk *)

(** The shape of the index sequence [convex_hull] that the main loop leaves
    behind, over [n] points and from the index [start]: a sequence
    [distinct] of pairwise different indices that begins with [start],
    either alone (the walk came back to [start] and the repeat was popped)
    or followed by one more entry [c], a repeat of an index of [distinct]
    other than [start] and other than the last one. *)
Definition walk_shape (n start : nat) (convex_hull distinct : list nat)
    : Prop :=
  hd 0 distinct = start /\
  2 <= length distinct /\
  NoDup distinct /\
  Forall (fun i => i < n) distinct /\
  (convex_hull = distinct \/
   exists c, convex_hull = distinct ++ [c] /\
             In c distinct /\ c <> start /\ c <> last distinct 0).

(** Every way the main loop can go within [rounds] rounds, over all the
    initial candidates that [find_new_point] can return: the index sequence
    and the flag each way ends with, or [None] for a way that is not
    complete after [rounds] rounds. *)
Fixpoint walks (rounds : nat) (points : list point) (convex_hull : list nat)
    (all_points_collinear : bool) : list (option (list nat * bool)) :=
  match rounds with
  | 0 => [None]
  | S rounds' =>
      let end_of_hull_index := last convex_hull 0 in
      flat_map
        (fun candidate =>
           if candidate =? end_of_hull_index then []
           else
             let (candidate, all_points_collinear) :=
               refine_candidate points convex_hull end_of_hull_index
                                (candidate, all_points_collinear) in
             let (convex_hull, complete) :=
               update_hull convex_hull candidate in
             if complete then [Some (convex_hull, all_points_collinear)]
             else walks rounds' points convex_hull all_points_collinear)
        (seq 0 (length points))
  end.

(** ** Points on a line *)

(** The orientation test places [points] on one line, at the positions
    [pos] of their indices: different points have different positions,
    every triplet of different points is flagged collinear, and it is flagged
    a right turn exactly when the position of the second point (the test
    point) lies strictly between those of the other two. *)
Definition on_line (points : list point) (pos : nat -> Z) : Prop :=
  (forall i j, i < length points -> j < length points -> i <> j ->
     pos i <> pos j) /\
  (forall e t c,
     e < length points -> t < length points -> c < length points ->
     e <> t -> t <> c -> e <> c ->
     let r := find_orientation
                (new_triplet (at_index points e) (at_index points t)
                             (at_index points c)) in
     collinearity r = true /\
     (right_turn r = true <->
      (pos e < pos t < pos c \/ pos c < pos t < pos e)%Z)).

(** The positions of the indices [idxs] go up strictly. *)
Definition increasing (pos : nat -> Z) (idxs : list nat) : Prop :=
  forall a b, a < b -> b < length idxs ->
    (pos (nth a idxs 0%nat) < pos (nth b idxs 0%nat))%Z.

(** The invariant of the main loop on a line that it walks from one end:
    [convex_hull] holds pairwise different indices in order of position, and
    the points not yet on it lie beyond its last one. *)
Definition swept (n : nat) (pos : nat -> Z) (convex_hull : list nat) : Prop :=
  convex_hull <> [] /\
  NoDup convex_hull /\
  Forall (fun i => i < n) convex_hull /\
  increasing pos convex_hull /\
  (forall j, In j convex_hull -> j <> last convex_hull 0 ->
     (pos j < pos (last convex_hull 0%nat))%Z) /\
  (forall j, j < n -> ~ In j convex_hull ->
     (pos (last convex_hull 0%nat) < pos j)%Z).

(** What the tests [0 .. k-1] of one round leave as the candidate [c]: an
    index other than the anchor which, when beyond the anchor, is the
    nearest of the tested points beyond it, and is on [convex_hull] only
    while no point beyond the anchor has been tested. *)
Definition tested (n : nat) (pos : nat -> Z) (convex_hull : list nat)
    (k c : nat) : Prop :=
  c < n /\ c <> last convex_hull 0 /\
  (~ In c convex_hull ->
   forall t, t < k -> ~ In t convex_hull -> t <> c -> (pos c < pos t)%Z) /\
  (In c convex_hull -> forall t, t < k -> In t convex_hull).

(** ** Sample inputs *)

(** The four collinear points of the specification's example. *)
Definition collinear4 : list point :=
  [Point 0 0; Point 1 0; Point 2 0; Point 3 0].

(** A triangle with the vertices [(0,0)], [(0,3)] and [(1,0)] and two more
    points on its left edge; the first point, hence the leftmost by first
    occurrence, is inside that edge. *)
Definition skewed5 : list point :=
  [Point 0 1; Point 0 0; Point 0 3; Point 0 2; Point 1 0].

(** Four points of a diagonal, not in order, and their positions along it. *)
Definition diagonal4 : list point :=
  [Point 2 2; Point 0 0; Point 3 3; Point 1 1].

Definition diagonal4_pos (i : nat) : Z := nth i [2; 0; 3; 1]%Z 0%Z.

(** Four points of the line [x = 0]; the first of them, hence the leftmost
    by first occurrence, is not an end of the segment. *)
Definition vertical4 : list point :=
  [Point 0 1; Point 0 0; Point 0 3; Point 0 2].

(** The square with an interior point of the specification's example. *)
Definition square5 : list point :=
  [Point 0 0; Point 0 2; Point 2 2; Point 2 0; Point 1 1].

(** * Properties *)

(** ** The order of binary64 numbers

    [<?] and [=?] are read through their specification [SFcompare], a
    lexicographic comparison of sign, exponent and mantissa. *)

Module FloatOrder.

Local Open Scope float_scope.

Ltac sfcases :=
  repeat match goal with
  | b : bool |- _ => destruct b
  end;
  simpl in *; try discriminate; try reflexivity.

Ltac zpos_hyp :=
  repeat match goal with
  | H : context [Z.compare ?a ?b] |- _ =>
      destruct (Z.compare_spec a b); try discriminate
  | H : context [Pos.compare_cont Eq ?a ?b] |- _ =>
      change (Pos.compare_cont Eq a b) with (Pos.compare a b) in *;
      destruct (Pos.compare_spec a b); simpl in H; try discriminate
  end.

Ltac zpos_goal :=
  repeat match goal with
  | |- context [Z.compare ?a ?b] =>
      destruct (Z.compare_spec a b); try lia
  | |- context [Pos.compare_cont Eq ?a ?b] =>
      change (Pos.compare_cont Eq a b) with (Pos.compare a b);
      destruct (Pos.compare_spec a b); simpl; try lia
  end; try reflexivity; try lia.

Lemma SFcompare_lt_trans a b c :
  SFcompare a b = Some Lt -> SFcompare b c = Some Lt ->
  SFcompare a c = Some Lt.
Proof.
  destruct a as [sa|sa| |sa ma ea], b as [sb|sb| |sb mb eb],
           c as [sc|sc| |sc mc ec]; intros H1 H2; sfcases.
  all: zpos_hyp; subst; zpos_goal.
Qed.

Lemma SFcompare_eq_lt a b c :
  SFcompare a b = Some Eq -> SFcompare b c = Some Lt ->
  SFcompare a c = Some Lt.
Proof.
  destruct a as [sa|sa| |sa ma ea], b as [sb|sb| |sb mb eb],
           c as [sc|sc| |sc mc ec]; intros H1 H2; sfcases.
  all: zpos_hyp; subst; zpos_goal.
Qed.

Lemma SFcompare_lt_gt a b :
  SFcompare a b = Some Lt -> SFcompare b a = Some Gt.
Proof.
  destruct a as [sa|sa| |sa ma ea], b as [sb|sb| |sb mb eb];
    intros H1; sfcases.
  all: zpos_hyp; subst; zpos_goal.
Qed.

Lemma SFcompare_eq_sym a b :
  SFcompare a b = Some Eq -> SFcompare b a = Some Eq.
Proof.
  destruct a as [sa|sa| |sa ma ea], b as [sb|sb| |sb mb eb];
    intros H1; sfcases.
  all: zpos_hyp; subst; zpos_goal.
Qed.

Lemma SFcompare_gt_lt a b :
  SFcompare a b = Some Gt -> SFcompare b a = Some Lt.
Proof.
  destruct a as [sa|sa| |sa ma ea], b as [sb|sb| |sb mb eb];
    intros H1; sfcases.
  all: zpos_hyp; subst; zpos_goal.
Qed.

Lemma SFcompare_lt_infinity a b :
  SFcompare a b = Some Lt ->
  SFcompare a (S754_infinity false) = Some Lt.
Proof.
  destruct a as [sa|sa| |sa ma ea], b as [sb|sb| |sb mb eb];
    intros H1; sfcases.
Qed.

Lemma ltb_Lt (a b : float) :
  (a <? b) = true <-> SFcompare (Prim2SF a) (Prim2SF b) = Some Lt.
Proof.
  rewrite ltb_spec. unfold SFltb.
  destruct (SFcompare (Prim2SF a) (Prim2SF b)) as [[]|];
    split; intro; congruence.
Qed.

Lemma eqb_Eq (a b : float) :
  (a =? b) = true <-> SFcompare (Prim2SF a) (Prim2SF b) = Some Eq.
Proof.
  rewrite eqb_spec. unfold SFeqb.
  destruct (SFcompare (Prim2SF a) (Prim2SF b)) as [[]|];
    split; intro; congruence.
Qed.

Lemma ltb_trans a b c : (a <? b) = true -> (b <? c) = true -> (a <? c) = true.
Proof. rewrite !ltb_Lt. apply SFcompare_lt_trans. Qed.

Lemma eqb_ltb_trans a b c :
  (a =? b) = true -> (b <? c) = true -> (a <? c) = true.
Proof. rewrite eqb_Eq, !ltb_Lt. apply SFcompare_eq_lt. Qed.

Lemma ltb_asym a b : (a <? b) = true -> (b <? a) = false.
Proof.
  intros H. apply ltb_Lt, SFcompare_lt_gt in H.
  rewrite ltb_spec. unfold SFltb. now rewrite H.
Qed.

Lemma ltb_irrefl a : (a <? a) = false.
Proof.
  destruct (a <? a) eqn:E; [|reflexivity].
  now rewrite (ltb_asym _ _ E) in E.
Qed.

Lemma ltb_not_eqb a b : (a <? b) = true -> (a =? b) = false.
Proof.
  intros H. apply ltb_Lt in H. rewrite eqb_spec. unfold SFeqb. now rewrite H.
Qed.

Lemma eqb_not_ltb a b : (a =? b) = true -> (a <? b) = false /\ (b <? a) = false.
Proof.
  intros H. apply eqb_Eq in H. pose proof (SFcompare_eq_sym _ _ H) as H'.
  rewrite !ltb_spec. unfold SFltb. now rewrite H, H'.
Qed.

Lemma ltb_infinity a b : (a <? b) = true -> (a <? infinity) = true.
Proof.
  rewrite !ltb_Lt. change (Prim2SF infinity) with (S754_infinity false).
  apply SFcompare_lt_infinity.
Qed.

(** On numbers ([x =? x] holds of everything but NaN) the order is total. *)
Lemma leb_total a b :
  (a =? a) = true -> (b =? b) = true -> (b <? a) = false -> (a <=? b) = true.
Proof.
  rewrite !eqb_spec, ltb_spec, leb_spec. unfold SFeqb, SFltb, SFleb.
  destruct (SFcompare (Prim2SF b) (Prim2SF a)) as [[]|] eqn:E.
  - now rewrite (SFcompare_eq_sym _ _ E).
  - discriminate.
  - now rewrite (SFcompare_gt_lt _ _ E).
  - destruct (Prim2SF a), (Prim2SF b); simpl in *; try discriminate.
Qed.

Lemma ltb_number a b : (a <? b) = true -> (a =? a) = true /\ (b =? b) = true.
Proof.
  rewrite ltb_Lt, !eqb_Eq.
  destruct (Prim2SF a) as [sa|sa| |sa ma ea], (Prim2SF b) as [sb|sb| |sb mb eb];
    intros H; sfcases; split; try reflexivity.
  all: rewrite ?Z.compare_refl;
       change (Pos.compare_cont Eq ?m ?m) with (Pos.compare m m);
       rewrite ?Pos.compare_refl; reflexivity.
Qed.

End FloatOrder.

Import FloatOrder.

(** ** The orientation test *)

(** [find_orientation] keeps the two products. *)
Lemma find_orientation_products t :
  determinent (find_orientation t) = determinent t /\
  dot_product (find_orientation t) = dot_product t.
Proof.
  unfold find_orientation.
  repeat match goal with |- context [if ?c then _ else _] => destruct c end;
    split; reflexivity.
Qed.

(** With both products equal to zero no branch of the chain is taken. *)
Lemma find_orientation_zero_zero t :
  (determinent t =? 0)%float = true -> (dot_product t =? 0)%float = true ->
  find_orientation t = t.
Proof.
  intros Hd Hp. unfold find_orientation.
  destruct (eqb_not_ltb _ _ Hd) as [Hd1 Hd2].
  destruct (eqb_not_ltb _ _ Hp) as [Hp1 Hp2].
  now rewrite Hd1, Hd2, Hp1, Hp2, Hd.
Qed.

(** C3. For every triplet, with [a = p1 - p2] and [b = p3 - p2], the
    products are [a.x*b.y - b.x*a.y] and [a.x*b.x + a.y*b.y], and
    [find_orientation] sets: determinant > 0: right turn, not collinear;
    determinant == 0 and dot product < 0: right turn, collinear;
    determinant == 0 and dot product > 0: no right turn, collinear;
    determinant < 0: no right turn, not collinear. *)
Theorem find_orientation_classifies (p1 p2 p3 : point) :
  let t := new_triplet p1 p2 p3 in
  let r := find_orientation t in
  determinent t
    = ((x p1 - x p2) * (y p3 - y p2) - (x p3 - x p2) * (y p1 - y p2))%float /\
  dot_product t
    = ((x p1 - x p2) * (x p3 - x p2) + (y p1 - y p2) * (y p3 - y p2))%float /\
  ((0 <? determinent t)%float = true ->
     right_turn r = true /\ collinearity r = false) /\
  ((determinent t =? 0)%float = true -> (dot_product t <? 0)%float = true ->
     right_turn r = true /\ collinearity r = true) /\
  ((determinent t =? 0)%float = true -> (0 <? dot_product t)%float = true ->
     right_turn r = false /\ collinearity r = true) /\
  ((determinent t <? 0)%float = true ->
     right_turn r = false /\ collinearity r = false).
Proof.
  intros t r. subst r. unfold find_orientation.
  split; [reflexivity|]. split; [reflexivity|].
  split; [intros H; rewrite H; split; reflexivity|].
  split.
  { intros Hd Hp. destruct (eqb_not_ltb _ _ Hd) as [_ Hd2].
    rewrite Hd2, Hd, Hp. split; reflexivity. }
  split.
  { intros Hd Hp. destruct (eqb_not_ltb _ _ Hd) as [_ Hd2].
    rewrite Hd2, Hd, (ltb_asym _ _ Hp), Hp. split; reflexivity. }
  intros Hd. rewrite (ltb_asym _ _ Hd), (ltb_not_eqb _ _ Hd), Hd.
  split; reflexivity.
Qed.

(** The theorem on one triplet of each of the four kinds. *)
Lemma find_orientation_classifies_witness :
  let turn p3 := find_orientation (new_triplet (Point 0 0) (Point 1 0) p3) in
  (right_turn (turn (Point 1 (-1))) = true /\
   collinearity (turn (Point 1 (-1))) = false) /\
  (right_turn (turn (Point 2 0)) = true /\
   collinearity (turn (Point 2 0)) = true) /\
  (right_turn (turn (Point (-1) 0)) = false /\
   collinearity (turn (Point (-1) 0)) = true) /\
  (right_turn (turn (Point 1 1)) = false /\
   collinearity (turn (Point 1 1)) = false).
Proof.
  intros turn. subst turn. cbv beta.
  split; [|split; [|split]].
  - pose proof (find_orientation_classifies
                  (Point 0 0) (Point 1 0) (Point 1 (-1))) as H.
    cbv zeta in H. destruct H as (_ & _ & H & _). exact (H eq_refl).
  - pose proof (find_orientation_classifies
                  (Point 0 0) (Point 1 0) (Point 2 0)) as H.
    cbv zeta in H. destruct H as (_ & _ & _ & H & _).
    exact (H eq_refl eq_refl).
  - pose proof (find_orientation_classifies
                  (Point 0 0) (Point 1 0) (Point (-1) 0)) as H.
    cbv zeta in H. destruct H as (_ & _ & _ & _ & H & _).
    exact (H eq_refl eq_refl).
  - pose proof (find_orientation_classifies
                  (Point 0 0) (Point 1 0) (Point 1 1)) as H.
    cbv zeta in H. destruct H as (_ & _ & _ & _ & _ & H). exact (H eq_refl).
Defined.

(** C4. The degenerate triplet [p1 = p2 = (0,0)], [p3 = (1,0)]: both
    products are zero, and [find_orientation] leaves both flags at their
    initial [false]: the triplet is not flagged collinear. *)
Theorem find_orientation_coincident_points :
  let t := find_orientation (new_triplet (Point 0 0) (Point 0 0) (Point 1 0)) in
  (determinent t =? 0)%float = true /\
  (dot_product t =? 0)%float = true /\
  collinearity t = false /\
  right_turn t = false.
Proof. vm_compute. repeat split. Qed.

(** ** [find_leftmost_point] *)

(** The loop either keeps the incoming index, and then no remaining point is
    below the incoming value, or moves to the first remaining point whose
    [x] no remaining point is below. *)
Lemma leftmost_loop_cases (rest : list point) :
  forall p m idx,
  let i := leftmost_loop rest p m idx in
  (i = idx /\
   forall k, k < length rest -> (x (at_index rest k) <? m)%float = false)
  \/
  (exists k, k < length rest /\ i = p + k /\
     (x (at_index rest k) <? m)%float = true /\
     (forall j, j < length rest ->
        (x (at_index rest j) <? x (at_index rest k))%float = false) /\
     (forall j, j < k ->
        (x (at_index rest j) =? x (at_index rest k))%float = false)).
Proof.
  induction rest as [|pt rest' IH]; intros p m idx; simpl.
  - left. split; [reflexivity|]. intros k Hk. lia.
  - unfold at_index in *. destruct (x pt <? m)%float eqn:Hlt.
    + right.
      destruct (IH (S p) (x pt) p)
        as [[Hi Hall]|(k & Hk & Hi & Hkm & Hmin & Hfirst)].
      * exists 0. split; [lia|]. split; [lia|]. split; [exact Hlt|]. split.
        -- intros [|j] Hj; [apply ltb_irrefl|]. apply Hall. lia.
        -- intros j Hj. lia.
      * exists (S k). split; [lia|]. split; [lia|].
        split; [exact (ltb_trans _ _ _ Hkm Hlt)|]. split.
        -- intros [|j] Hj; [exact (ltb_asym _ _ Hkm)|]. apply Hmin. lia.
        -- intros [|j] Hj; [|apply Hfirst; lia]. simpl.
           destruct (x pt =? x (nth k rest' (Point 0 0)))%float eqn:E;
             [|reflexivity].
           apply eqb_not_ltb in E. destruct E as [_ E]. congruence.
    + destruct (IH (S p) m idx)
        as [[Hi Hall]|(k & Hk & Hi & Hkm & Hmin & Hfirst)].
      * left. split; [assumption|].
        intros [|k] Hk; [assumption|]. apply Hall. lia.
      * right. exists (S k). split; [lia|]. split; [lia|].
        split; [exact Hkm|]. split.
        -- intros [|j] Hj; [|apply Hmin; lia]. simpl.
           destruct (x pt <? x (nth k rest' (Point 0 0)))%float eqn:E;
             [|reflexivity].
           rewrite (ltb_trans _ _ _ E Hkm) in Hlt. discriminate.
        -- intros [|j] Hj; [|apply Hfirst; lia]. simpl.
           destruct (x pt =? x (nth k rest' (Point 0 0)))%float eqn:E;
             [|reflexivity].
           rewrite (eqb_ltb_trans _ _ _ E Hkm) in Hlt. discriminate.
Qed.

(** C7. When some point's [x] is strictly below the initial [leftmost_val],
    [find_leftmost_point] returns an index [i] of the collection whose [x] is
    below [leftmost_val] and minimal: no point has a strictly smaller [x],
    every point whose [x] is a number (not NaN) has an [x] at least as
    large, and no earlier index has an equal [x]: among the points of
    minimal [x] it is the first. *)
Theorem find_leftmost_point_first_minimum (leftmost_val : float)
    (points : list point) :
  (exists j, j < length points /\
             (x (at_index points j) <? leftmost_val)%float = true) ->
  let i := find_leftmost_point leftmost_val points in
  i < length points /\
  (x (at_index points i) <? leftmost_val)%float = true /\
  (forall j, j < length points ->
     (x (at_index points j) <? x (at_index points i))%float = false) /\
  (forall j, j < length points ->
     (x (at_index points j) =? x (at_index points j))%float = true ->
     (x (at_index points i) <=? x (at_index points j))%float = true) /\
  (forall j, j < i ->
     (x (at_index points j) =? x (at_index points i))%float = false).
Proof.
  intros (j & Hj & Hjv) i. subst i. unfold find_leftmost_point.
  destruct (leftmost_loop_cases points 0 leftmost_val 0)
    as [[_ Hall]|(k & Hk & Hi & Hkm & Hmin & Hfirst)].
  - rewrite (Hall j Hj) in Hjv. discriminate.
  - rewrite Hi. simpl. repeat split; try assumption.
    intros j' Hj' Hnum. apply leb_total.
    + exact (proj1 (ltb_number _ _ Hkm)).
    + exact Hnum.
    + apply Hmin. exact Hj'.
Qed.

(** The theorem at four points, two of which share the least [x]. *)
Lemma find_leftmost_point_first_minimum_witness :
  let points := [Point 3 0; Point 1 5; Point 2 2; Point 1 7] in
  find_leftmost_point infinity points = 1 /\
  let i := find_leftmost_point infinity points in
  i < length points /\
  (x (at_index points i) <? infinity)%float = true /\
  (forall j, j < length points ->
     (x (at_index points j) <? x (at_index points i))%float = false) /\
  (forall j, j < length points ->
     (x (at_index points j) =? x (at_index points j))%float = true ->
     (x (at_index points i) <=? x (at_index points j))%float = true) /\
  (forall j, j < i ->
     (x (at_index points j) =? x (at_index points i))%float = false).
Proof.
  split; [reflexivity|].
  apply (find_leftmost_point_first_minimum infinity
           [Point 3 0; Point 1 5; Point 2 2; Point 1 7]).
  exists 0. split; [simpl; lia | reflexivity].
Defined.

(** ** [find_convex_hull] on small inputs *)

(** C6. On no point [find_convex_hull] returns the empty sequence, on one
    point that point, and on two points both of them: first the one that
    [find_leftmost_point] selects, which the other one is never strictly to
    the left of, then the other. None of the three consumes a random draw
    or any fuel. *)
Theorem find_convex_hull_small (rng : Type) (rand : rng -> Z * rng)
    (fuel : nat) (g : rng) (p q : point) :
  find_convex_hull rand fuel [] g = Some ([], g) /\
  find_convex_hull rand fuel [p] g = Some ([p], g) /\
  exists a b,
    find_convex_hull rand fuel [p; q] g = Some ([a; b], g) /\
    (a = p /\ b = q \/ a = q /\ b = p) /\
    a = at_index [p; q] (find_leftmost_point infinity [p; q]) /\
    (x b <? x a)%float = false.
Proof.
  split; [reflexivity|]. split; [reflexivity|].
  unfold find_convex_hull, find_leftmost_point, at_index. simpl.
  destruct (x p <? infinity)%float eqn:Hp.
  - destruct (x q <? x p)%float eqn:Hq; simpl.
    + exists q, p. repeat split; auto using ltb_asym.
    + exists p, q. repeat split; auto.
  - destruct (x q <? infinity)%float eqn:Hq; simpl.
    + exists q, p. repeat split; auto.
      destruct (x p <? x q)%float eqn:E; [|reflexivity].
      rewrite (ltb_infinity _ _ E) in Hp. discriminate.
    + exists p, q. repeat split; auto.
      destruct (x q <? x p)%float eqn:E; [|reflexivity].
      rewrite (ltb_infinity _ _ E) in Hq. discriminate.
Qed.

(** ** The hull walk *)

Lemma found_In v range : found v range = true <-> In v range.
Proof.
  unfold found. rewrite existsb_exists. split.
  - intros (w & Hw & E). apply Nat.eqb_eq in E. now subst.
  - intros H. exists v. split; [assumption|apply Nat.eqb_refl].
Qed.

Lemma found_not_In v range : found v range = false <-> ~ In v range.
Proof.
  rewrite <- found_In. destruct (found v range); split; congruence.
Qed.

Section Walk.

Variable rng : Type.
Variable rand : rng -> Z * rng.

(** Whatever [find_new_point] returns is an index of [points] outside
    [exceptions]. *)
Lemma find_new_point_sound fuel points exceptions :
  points <> [] ->
  forall g i g',
  find_new_point rand fuel points exceptions g = Some (i, g') ->
  i < length points /\ ~ In i exceptions.
Proof.
  intros Hne. induction fuel as [|fuel IH]; intros g i g'; simpl;
    [discriminate|].
  destruct (rand g) as [r g1].
  destruct (found _ exceptions) eqn:F; simpl.
  - apply IH.
  - intros E. injection E as <- <-. split; [|now apply found_not_In].
    assert (0 < Z.of_nat (length points))%Z
      by (destruct points; [congruence|simpl; lia]).
    pose proof (Z.mod_pos_bound r (Z.of_nat (length points)) H). lia.
Qed.

(** One test keeps the candidate an index of [points] other than the
    anchor. *)
Lemma test_one_bound points convex_hull e c apc t :
  t < length points -> c < length points -> c <> e ->
  fst (test_one points convex_hull e (c, apc) t) < length points /\
  fst (test_one points convex_hull e (c, apc) t) <> e.
Proof.
  intros Ht Hc Hce. unfold test_one.
  destruct (t =? c) eqn:Etc; simpl; [now split|].
  destruct (t =? e) eqn:Ete; simpl; [now split|].
  apply Nat.eqb_neq in Ete.
  repeat match goal with
         | |- context [if ?b then _ else _] => destruct b
         end; simpl; now split.
Qed.

Lemma refine_candidate_bound points convex_hull e c apc :
  c < length points -> c <> e ->
  fst (refine_candidate points convex_hull e (c, apc)) < length points /\
  fst (refine_candidate points convex_hull e (c, apc)) <> e.
Proof.
  unfold refine_candidate.
  assert (Hseq : Forall (fun t => t < length points) (seq 0 (length points)))
    by (apply Forall_forall; intros t Ht; apply in_seq in Ht; lia).
  revert c apc Hseq.
  induction (seq 0 (length points)) as [|t ts IH]; intros c apc Hseq Hc Hce;
    cbn [fold_left]; [now split|].
  inversion Hseq as [|? ? Ht Hts]; subst.
  destruct (test_one points convex_hull e (c, apc) t) as [c1 apc1] eqn:E.
  pose proof (test_one_bound points convex_hull e c apc t Ht Hc Hce) as B.
  rewrite E in B. simpl in B. now apply IH.
Qed.

(** The three ways a round of the main loop ends. *)
Lemma update_hull_cases convex_hull candidate :
  convex_hull <> [] ->
  update_hull convex_hull candidate =
    if found candidate convex_hull
    then if hd 0 convex_hull =? candidate
         then (convex_hull, true)
         else (convex_hull ++ [candidate], true)
    else (convex_hull ++ [candidate], false).
Proof.
  intros Hne. unfold update_hull.
  rewrite last_last, removelast_last.
  destruct convex_hull as [|i rest]; [congruence|]. reflexivity.
Qed.

(** The walk of any run, with any generator, is one of [walks]. *)
Lemma hull_loop_in_walks points :
  points <> [] ->
  forall rounds fuel convex_hull apc g h apc' g',
  hull_loop rand fuel points convex_hull apc g = Some (h, apc', g') ->
  In None (walks rounds points convex_hull apc) \/
  In (Some (h, apc')) (walks rounds points convex_hull apc).
Proof.
  intros Hne. induction rounds as [|rounds IH];
    intros fuel convex_hull apc g h apc' g' Hrun; [left; now left|].
  destruct fuel as [|fuel]; [discriminate|]. cbn [hull_loop walks] in *.
  destruct (find_new_point rand fuel points [last convex_hull 0] g)
    as [[c0 g1]|] eqn:Hdraw; [|discriminate].
  apply (find_new_point_sound _ _ _ Hne) in Hdraw. destruct Hdraw as [Hc0 Hexc].
  assert (Hce : c0 <> last convex_hull 0) by (intros ->; apply Hexc; now left).
  assert (Hin : In c0 (seq 0 (length points))) by (apply in_seq; lia).
  destruct (refine_candidate points convex_hull (last convex_hull 0) (c0, apc))
    as [c apc1] eqn:Href.
  destruct (update_hull convex_hull c) as [h1 complete] eqn:Hup.
  assert (Hstep : forall o,
    In o (if complete then [Some (h1, apc1)] else walks rounds points h1 apc1) ->
    In o (flat_map
      (fun candidate =>
         if candidate =? last convex_hull 0 then []
         else
           let (candidate0, all_points_collinear) :=
             refine_candidate points convex_hull (last convex_hull 0)
                              (candidate, apc) in
           let (convex_hull0, complete0) :=
             update_hull convex_hull candidate0 in
           if complete0 then [Some (convex_hull0, all_points_collinear)]
           else walks rounds points convex_hull0 all_points_collinear)
      (seq 0 (length points)))).
  { intros o Ho. apply in_flat_map. exists c0. split; [assumption|].
    apply Nat.eqb_neq in Hce. rewrite Hce, Href, Hup. exact Ho. }
  destruct complete.
  - injection Hrun as <- <- <-. right. apply Hstep. now left.
  - destruct (IH _ _ _ _ _ _ _ Hrun) as [H|H]; [left|right]; now apply Hstep.
Qed.

(** The main loop leaves a walk of the shape [walk_shape], which extends
    the sequence it started from. *)
Lemma hull_loop_shape points :
  points <> [] ->
  forall fuel convex_hull apc g h apc' g',
  convex_hull <> [] -> NoDup convex_hull ->
  Forall (fun i => i < length points) convex_hull ->
  hull_loop rand fuel points convex_hull apc g = Some (h, apc', g') ->
  exists distinct more,
    distinct = convex_hull ++ more /\
    walk_shape (length points) (hd 0 convex_hull) h distinct.
Proof.
  intros Hne. induction fuel as [|fuel IH];
    intros convex_hull apc g h apc' g' Hh Hnd Hlt Hrun; [discriminate|].
  cbn [hull_loop] in Hrun.
  destruct (find_new_point rand fuel points [last convex_hull 0] g)
    as [[c0 g1]|] eqn:Hdraw; [|discriminate].
  apply (find_new_point_sound _ _ _ Hne) in Hdraw. destruct Hdraw as [Hc0 Hexc].
  assert (Hce0 : c0 <> last convex_hull 0) by (intros ->; apply Hexc; now left).
  pose proof (refine_candidate_bound points convex_hull _ c0 apc Hc0 Hce0) as B.
  destruct (refine_candidate points convex_hull (last convex_hull 0) (c0, apc))
    as [c apc1] eqn:Href.
  simpl in B. destruct B as [Hc Hce].
  rewrite (update_hull_cases _ _ Hh) in Hrun.
  destruct (found c convex_hull) eqn:F.
  - apply found_In in F.
    assert (Hlen : 2 <= length convex_hull).
    { destruct convex_hull as [|i [|j rest]]; simpl in *; lia. }
    destruct (hd 0 convex_hull =? c) eqn:Ehd.
    + injection Hrun as <- <- <-. exists convex_hull, [].
      split; [now rewrite app_nil_r|].
      repeat split; auto.
    + injection Hrun as <- <- <-. exists convex_hull, [].
      split; [now rewrite app_nil_r|].
      repeat split; auto. right. exists c. repeat split; auto.
      apply Nat.eqb_neq in Ehd. congruence.
  - apply found_not_In in F.
    destruct (IH (convex_hull ++ [c]) apc1 g1 h apc' g') as (d & more & Hd & Hs).
    + now destruct convex_hull.
    + apply NoDup_app; [assumption|repeat constructor; intros []|].
      intros i Hi [<-|[]]. contradiction.
    + apply Forall_app. split; [assumption|]. now constructor.
    + exact Hrun.
    + exists d, (c :: more). split; [now rewrite Hd, <- app_assoc|].
      destruct convex_hull as [|i rest]; [congruence|]. exact Hs.
Qed.

End Walk.

(** ** Output assembly *)

(** The degenerate branch emits the points of the indices [i .. i+k-1] when
    each of them passes the loop's test and the loop then ends or breaks. *)
Lemma rebuild_loop_emits points convex_hull :
  forall todo i acc k,
  k <= todo ->
  (forall j, i <= j < i + k ->
     (j =? 0) || negb (found (nth j convex_hull 0)
                             (firstn (j - 1) convex_hull)) = true) ->
  (k = todo \/
   (i + k =? 0) || negb (found (nth (i + k) convex_hull 0)
                               (firstn (i + k - 1) convex_hull)) = false) ->
  rebuild_loop points convex_hull i todo acc
  = acc ++ map (fun j => at_index points (nth j convex_hull 0)) (seq i k).
Proof.
  induction todo as [|todo IH]; intros i acc k Hk Hpass Hstop.
  - assert (k = 0) by lia. subst. simpl. now rewrite app_nil_r.
  - destruct k as [|k]; cbn [rebuild_loop].
    + destruct Hstop as [Hstop|Hstop]; [discriminate|].
      rewrite Nat.add_0_r in Hstop. rewrite Hstop. simpl.
      now rewrite app_nil_r.
    + rewrite (Hpass i) by lia.
      rewrite (IH (S i) _ k); try lia.
      * cbn [seq map]. now rewrite <- app_assoc.
      * intros j Hj. apply Hpass. lia.
      * destruct Hstop as [Hstop|Hstop]; [left; lia|right].
        now replace (S i + k) with (i + S k) by lia.
Qed.

Lemma map_nth_seq (d more : list nat) :
  map (fun j => nth j (d ++ more) 0) (seq 0 (length d)) = d.
Proof.
  induction d as [|i d IH]; [reflexivity|].
  cbn [length seq map app nth]. f_equal.
  rewrite <- seq_shift, map_map. exact IH.
Qed.

(** In a sequence of pairwise different indices every position passes the
    test of the degenerate branch. *)
Lemma distinct_passes (d more : list nat) j :
  NoDup d -> j < length d ->
  (j =? 0) || negb (found (nth j (d ++ more) 0) (firstn (j - 1) (d ++ more)))
  = true.
Proof.
  intros Hnd Hj. apply orb_true_iff. right. apply negb_true_iff.
  apply found_not_In. intros Hin.
  rewrite app_nth1 in Hin by assumption.
  rewrite firstn_app in Hin.
  replace (j - 1 - length d) with 0 in Hin by lia.
  rewrite firstn_O, app_nil_r in Hin.
  destruct (In_nth _ _ 0 Hin) as (p & Hp & E).
  rewrite length_firstn in Hp. rewrite nth_firstn in E.
  destruct (p <? j - 1) eqn:Lt; [|apply Nat.ltb_ge in Lt; lia].
  apply Nat.ltb_lt in Lt.
  assert (p = j) by (apply (proj1 (NoDup_nth d 0) Hnd); [lia|lia|exact E]).
  lia.
Qed.

(** The repeated entry at the end of a walk fails that test. *)
Lemma repeat_stops (d : list nat) c :
  In c d -> c <> last d 0 ->
  (length d =? 0)
  || negb (found (nth (length d) (d ++ [c]) 0)
                 (firstn (length d - 1) (d ++ [c]))) = false.
Proof.
  intros Hin Hlast.
  destruct d as [|i d0] eqn:Ed; [destruct Hin|]. rewrite <- Ed in *.
  assert (Hne : d <> []) by (rewrite Ed; discriminate).
  assert (Hlen : length d <> 0) by (rewrite Ed; discriminate).
  apply Nat.eqb_neq in Hlen. rewrite Hlen. simpl orb.
  apply negb_false_iff, found_In.
  rewrite nth_middle, firstn_app.
  replace (length d - 1 - length d) with 0 by lia.
  rewrite firstn_O, app_nil_r.
  replace (length d - 1) with (pred (length d)) by lia.
  rewrite <- removelast_firstn_len.
  rewrite (app_removelast_last 0 Hne) in Hin.
  apply in_app_or in Hin. destruct Hin as [Hin|[E|[]]]; [assumption|].
  congruence.
Qed.

(** What [hull_points] returns on a walk of the shape [walk_shape]: without
    the flag every entry of the walk, the repeat included; with the flag
    the pairwise different entries only. *)
Lemma hull_points_of_shape points n start convex_hull distinct :
  walk_shape n start convex_hull distinct ->
  hull_points points convex_hull false = map (at_index points) convex_hull /\
  hull_points points convex_hull true = map (at_index points) distinct.
Proof.
  intros (Hhd & Hlen & Hnd & Hlt & Hshape). split; [reflexivity|].
  unfold hull_points. simpl negb. cbv iota.
  destruct Hshape as [->|(c & -> & Hin & Hstart & Hlast)].
  - rewrite (rebuild_loop_emits points distinct (length distinct) 0 []
               (length distinct)).
    + simpl. rewrite <- (map_map (fun j => nth j distinct 0) (at_index points)).
      pose proof (map_nth_seq distinct []) as E. rewrite app_nil_r in E.
      now rewrite E.
    + lia.
    + intros j Hj. pose proof (distinct_passes distinct [] j Hnd) as P.
      rewrite app_nil_r in P. apply P. lia.
    + now left.
  - rewrite length_app. simpl length.
    rewrite (rebuild_loop_emits points (distinct ++ [c]) _ 0 []
               (length distinct)).
    + simpl.
      rewrite <- (map_map (fun j => nth j (distinct ++ [c]) 0)
                          (at_index points)).
      now rewrite map_nth_seq.
    + lia.
    + intros j Hj. apply distinct_passes; [assumption|lia].
    + right. simpl. now apply repeat_stops.
Qed.

(** ** Fuel and termination *)

Section Termination.

Variable rng : Type.
Variable rand : rng -> Z * rng.

(** More fuel does not change a result. *)
Lemma find_new_point_mono points exceptions :
  forall fuel fuel' g r,
  fuel <= fuel' ->
  find_new_point rand fuel points exceptions g = Some r ->
  find_new_point rand fuel' points exceptions g = Some r.
Proof.
  induction fuel as [|fuel IH]; intros fuel' g r Hle Hrun; [discriminate|].
  destruct fuel' as [|fuel']; [lia|]. cbn [find_new_point] in *.
  destruct (rand g) as [z g1].
  destruct (negb (found _ exceptions)); [assumption|].
  apply IH; [lia|assumption].
Qed.

Lemma hull_loop_mono points :
  forall fuel fuel' convex_hull apc g r,
  fuel <= fuel' ->
  hull_loop rand fuel points convex_hull apc g = Some r ->
  hull_loop rand fuel' points convex_hull apc g = Some r.
Proof.
  induction fuel as [|fuel IH]; intros fuel' convex_hull apc g r Hle Hrun;
    [discriminate|].
  destruct fuel' as [|fuel']; [lia|]. cbn [hull_loop] in *.
  destruct (find_new_point rand fuel points [last convex_hull 0] g)
    as [[c0 g1]|] eqn:Hdraw; [|discriminate].
  rewrite (find_new_point_mono _ _ fuel fuel' g _ ltac:(lia) Hdraw).
  destruct (refine_candidate points convex_hull (last convex_hull 0) (c0, apc))
    as [c apc1].
  destruct (update_hull convex_hull c) as [h1 complete].
  destruct complete; [assumption|]. apply IH; [lia|assumption].
Qed.

Lemma find_convex_hull_mono points :
  forall fuel fuel' g r,
  fuel <= fuel' ->
  find_convex_hull rand fuel points g = Some r ->
  find_convex_hull rand fuel' points g = Some r.
Proof.
  intros fuel fuel' g r Hle. unfold find_convex_hull, hull_walk.
  destruct (length points) as [|[|[|n]]]; try (intros H; exact H).
  destruct (hull_loop rand fuel points _ true g) as [[[h apc] g1]|] eqn:Hrun;
    [|discriminate].
  now rewrite (hull_loop_mono _ _ _ _ _ _ _ Hle Hrun).
Qed.

Lemma advance_add a b g :
  advance rng rand (a + b) g = advance rng rand b (advance rng rand a g).
Proof.
  revert g. induction a as [|a IH]; intros g; [reflexivity|]. simpl.
  apply IH.
Qed.

Lemma fair_advance n a g :
  fair rng rand n g -> fair rng rand n (advance rng rand a g).
Proof.
  intros Hfair k i Hi. destruct (Hfair (a + k) i Hi) as [j Hj].
  exists j. unfold draw in *. now rewrite <- advance_add, Nat.add_assoc.
Qed.

(** One round of the loop of [find_new_point], by [draw]. *)
Lemma find_new_point_step fuel points exceptions g :
  find_new_point rand (S fuel) points exceptions g
  = if found (draw rng rand (length points) g 0) exceptions
    then find_new_point rand fuel points exceptions (advance rng rand 1 g)
    else Some (draw rng rand (length points) g 0, advance rng rand 1 g).
Proof.
  unfold draw. simpl. destruct (rand g) as [r g1]. simpl.
  now destruct (found _ exceptions).
Qed.

(** A draw outside [exceptions] ends [find_new_point] at the first such
    draw. *)
Lemma find_new_point_first_draw points exceptions :
  forall j g,
  ~ In (draw rng rand (length points) g j) exceptions ->
  exists k, k <= j /\
    ~ In (draw rng rand (length points) g k) exceptions /\
    find_new_point rand (S k) points exceptions g
    = Some (draw rng rand (length points) g k, advance rng rand (S k) g).
Proof.
  induction j as [|j IH]; intros g Hj.
  - exists 0. split; [lia|]. split; [assumption|].
    rewrite find_new_point_step. apply found_not_In in Hj. now rewrite Hj.
  - destruct (found (draw rng rand (length points) g 0) exceptions) eqn:F.
    + destruct (IH (advance rng rand 1 g) Hj) as (k & Hk & Hout & Hrun).
      exists (S k). split; [lia|]. split; [exact Hout|].
      now rewrite find_new_point_step, F, Hrun.
    + exists 0. split; [lia|]. split; [now apply found_not_In|].
      now rewrite find_new_point_step, F.
Qed.

(** Under a fair stream the main loop ends: an index walk without repeats
    has at most [points.size()] entries. *)
Lemma hull_loop_terminates points :
  2 <= length points ->
  forall m convex_hull apc g,
  fair rng rand (length points) g ->
  convex_hull <> [] -> NoDup convex_hull ->
  Forall (fun i => i < length points) convex_hull ->
  length points - length convex_hull < m ->
  exists fuel r, hull_loop rand fuel points convex_hull apc g = Some r.
Proof.
  intros Hn. induction m as [|m IH];
    intros convex_hull apc g Hfair Hne Hnd Hlt Hm; [lia|].
  set (e := last convex_hull 0).
  assert (Hother : exists i, i < length points /\ ~ In i [e]).
  { destruct (Nat.eq_dec e 0) as [E|E].
    - exists 1. split; [lia|]. intros [H|[]]. lia.
    - exists 0. split; [lia|]. intros [H|[]]. lia. }
  destruct Hother as (i & Hi & Hie).
  destruct (Hfair 0 i Hi) as [j Hj]. simpl in Hj. rewrite <- Hj in Hie.
  destruct (find_new_point_first_draw points [e] j g Hie)
    as (k & _ & Hout & Hdraw).
  set (c0 := draw rng rand (length points) g k) in *.
  set (g1 := advance rng rand (S k) g) in *.
  assert (Hpts : points <> []) by (destruct points; simpl in *; [lia|discriminate]).
  destruct (find_new_point_sound rng rand _ _ _ Hpts _ _ _ Hdraw) as [Hc0 _].
  assert (Hce0 : c0 <> e) by (intros E; apply Hout; now left).
  pose proof (refine_candidate_bound points convex_hull e c0 apc Hc0 Hce0) as B.
  destruct (refine_candidate points convex_hull e (c0, apc)) as [c apc1] eqn:Href.
  simpl in B. destruct B as [Hc Hce].
  destruct (found c convex_hull) eqn:F.
  - exists (S (S k)). cbn [hull_loop]. fold e. rewrite Hdraw, Href.
    rewrite (update_hull_cases _ _ Hne), F.
    destruct (hd 0 convex_hull =? c); eauto.
  - apply found_not_In in F.
    assert (Hnd1 : NoDup (convex_hull ++ [c])).
    { apply NoDup_app; [assumption|repeat constructor; intros []|].
      intros i' Hi' [<-|[]]. contradiction. }
    assert (Hlt1 : Forall (fun i => i < length points) (convex_hull ++ [c])).
    { apply Forall_app. split; [assumption|]. now constructor. }
    assert (Hlen1 : length (convex_hull ++ [c]) <= length points).
    { apply Nat.le_trans with (length (seq 0 (length points)));
        [|rewrite length_seq; lia].
      apply NoDup_incl_length; [assumption|].
      intros i' Hi'. apply in_seq.
      rewrite Forall_forall in Hlt1. specialize (Hlt1 i' Hi'). lia. }
    rewrite length_app in Hlen1. simpl in Hlen1.
    destruct (IH (convex_hull ++ [c]) apc1 g1) as (fuel1 & r & Hrun).
    + now apply fair_advance.
    + now destruct convex_hull.
    + assumption.
    + assumption.
    + rewrite length_app. simpl. lia.
    + exists (S (Nat.max (S k) fuel1)), r. cbn [hull_loop]. fold e.
      rewrite (find_new_point_mono _ _ (S k) _ g _ (Nat.le_max_l _ _) Hdraw).
      rewrite Href, (update_hull_cases _ _ Hne).
      apply found_not_In in F. rewrite F.
      exact (hull_loop_mono _ _ _ _ _ _ _ (Nat.le_max_r _ _) Hrun).
Qed.

Lemma find_leftmost_point_bound v points :
  points <> [] -> find_leftmost_point v points < length points.
Proof.
  intros Hne. unfold find_leftmost_point.
  destruct (leftmost_loop_cases points 0 v 0) as [[-> _]|(k & Hk & -> & _)].
  - destruct points; [congruence|simpl; lia].
  - exact Hk.
Qed.

(** Under a fair stream [find_convex_hull] returns, on every input. *)
Lemma find_convex_hull_terminates points g :
  fair rng rand (length points) g ->
  exists fuel r, find_convex_hull rand fuel points g = Some r.
Proof.
  intros Hfair. unfold find_convex_hull, hull_walk.
  destruct (length points) as [|[|[|n]]] eqn:Hlen;
    try (exists 0; eexists; reflexivity).
  assert (Hpts : points <> []) by (destruct points; [discriminate|discriminate]).
  destruct (hull_loop_terminates points ltac:(lia) (S (length points))
              [find_leftmost_point infinity points] true g)
    as (fuel & [[h apc] g1] & Hrun).
  - now rewrite Hlen.
  - discriminate.
  - repeat constructor. intros [].
  - repeat constructor. now apply find_leftmost_point_bound.
  - lia.
  - exists fuel. rewrite Hrun. eauto.
Qed.

End Termination.

(** ** The generators *)

(** The first numbers of glibc's [rand()] after [srand(1)] and after
    [srand(10)]. *)
Example glibc_first_draws :
  map (fun k => fst (Glibc.rand (advance _ Glibc.rand k (Glibc.srand 1))))
      (seq 0 4)
  = [1804289383; 846930886; 1681692777; 1714636915]%Z /\
  map (fun k => fst (Glibc.rand (advance _ Glibc.rand k (Glibc.srand 10))))
      (seq 0 6)
  = [1215069295; 1311962008; 1086128678; 385788725; 1753820418;
     394002377]%Z.
Proof. split; vm_compute; reflexivity. Qed.

(** ** [find_new_point] *)

Lemma advance_counter k s :
  advance Z counter k s = (s + Z.of_nat k)%Z.
Proof.
  revert s. induction k as [|k IH]; intros s; simpl; [lia|].
  rewrite IH. lia.
Qed.

(** The counting generator is fair. *)
Lemma counter_fair n s : 0 < n -> fair Z counter n s.
Proof.
  intros Hn k i Hi. unfold draw.
  set (m := Z.of_nat n).
  exists (Z.to_nat ((Z.of_nat i - (s + Z.of_nat k)) mod m)).
  rewrite advance_counter. simpl fst.
  assert (Hm : (0 < m)%Z) by (unfold m; lia).
  pose proof (Z.mod_pos_bound (Z.of_nat i - (s + Z.of_nat k)) m Hm) as B.
  rewrite Nat2Z.inj_add, Z2Nat.id by lia.
  rewrite Z.add_assoc, Z.add_mod_idemp_r by lia.
  replace (s + Z.of_nat k + (Z.of_nat i - (s + Z.of_nat k)))%Z
    with (Z.of_nat i) by lia.
  rewrite Z.mod_small by (unfold m; lia). apply Nat2Z.id.
Qed.

(** C8. For a non-empty [points] and an [exceptions] list that leaves some
    index of [points] out, and under a fair stream, [find_new_point]
    terminates: from some amount of fuel on it returns one and the same
    index, which is below [points.size()] and not in [exceptions]. *)
Theorem find_new_point_returns_allowed_index (rng : Type)
    (rand : rng -> Z * rng) (points : list point) (exceptions : list nat)
    (g : rng) :
  points <> [] ->
  (exists i, i < length points /\ ~ In i exceptions) ->
  fair rng rand (length points) g ->
  exists fuel new_point g',
    (forall fuel', fuel <= fuel' ->
       find_new_point rand fuel' points exceptions g = Some (new_point, g')) /\
    new_point < length points /\
    ~ In new_point exceptions.
Proof.
  intros Hne (i & Hi & Hout) Hfair.
  destruct (Hfair 0 i Hi) as [j Hj]. simpl in Hj. rewrite <- Hj in Hout.
  destruct (find_new_point_first_draw rng rand points exceptions j g Hout)
    as (k & _ & Hk & Hrun).
  exists (S k), (draw rng rand (length points) g k), (advance rng rand (S k) g).
  split; [|split].
  - intros fuel' Hle. exact (find_new_point_mono rng rand _ _ _ _ _ _ Hle Hrun).
  - exact (proj1 (find_new_point_sound rng rand _ _ _ Hne _ _ _ Hrun)).
  - exact Hk.
Qed.

(** The theorem on three points, with the anchor [1] excluded and the
    counting generator started at [1]: the first draw is the anchor, the
    second is returned. *)
Lemma find_new_point_returns_allowed_index_witness :
  find_new_point counter 2 [Point 0 0; Point 1 0; Point 0 1] [1] 1%Z
    = Some (2, 3%Z) /\
  exists fuel new_point g',
    (forall fuel', fuel <= fuel' ->
       find_new_point counter fuel' [Point 0 0; Point 1 0; Point 0 1] [1] 1%Z
       = Some (new_point, g')) /\
    new_point < 3 /\
    ~ In new_point [1].
Proof.
  split; [reflexivity|].
  apply (find_new_point_returns_allowed_index Z counter
           [Point 0 0; Point 1 0; Point 0 1] [1] 1%Z).
  - discriminate.
  - exists 0. split; [simpl; lia|]. intros [H|[]]. discriminate.
  - apply counter_fair. simpl. lia.
Defined.

(** ** [jarvis_march] *)

Lemma read_points_enough x_coords :
  forall y_coords,
  length x_coords <= length y_coords ->
  exists points,
    read_points x_coords y_coords = Some points /\
    read_points x_coords (firstn (length x_coords) y_coords) = Some points /\
    length points = length x_coords.
Proof.
  induction x_coords as [|xi xs IH]; intros y_coords Hle.
  - exists []. repeat split.
  - destruct y_coords as [|yi ys]; simpl in Hle; [lia|].
    destruct (IH ys ltac:(lia)) as (points & H1 & H2 & H3).
    exists (Point xi yi :: points). simpl. rewrite H1, H2, H3. repeat split.
Qed.

Section EntryPoint.

Variable rng : Type.
Variable rand : rng -> Z * rng.
Variable srand : Z -> rng.

(** C10. [jarvis_march] is deterministic across calls: whatever state the
    generator is in when the call starts, the call ends the same way, since
    [srand(10)] replaces that state; two calls that return, with whatever
    fuel, return the same sequence (and leave the same state); and on
    equal-length inputs, under a fair stream, the call does return. *)
Theorem jarvis_march_deterministic (x_coords y_coords : list float) :
  (forall fuel g1 g2,
     jarvis_march rand srand fuel x_coords y_coords g1
     = jarvis_march rand srand fuel x_coords y_coords g2) /\
  (forall fuel1 fuel2 g1 g2 r1 r2,
     jarvis_march rand srand fuel1 x_coords y_coords g1 = Returns r1 ->
     jarvis_march rand srand fuel2 x_coords y_coords g2 = Returns r2 ->
     r1 = r2) /\
  (length x_coords = length y_coords ->
   fair rng rand (length x_coords) (srand 10) ->
   exists fuel r, forall g,
     jarvis_march rand srand fuel x_coords y_coords g = Returns r).
Proof.
  split; [reflexivity|]. split.
  - intros fuel1 fuel2 g1 g2 r1 r2. unfold jarvis_march.
    destruct (read_points x_coords y_coords) as [points|]; [|discriminate].
    destruct (find_convex_hull rand fuel1 points (srand 10))
      as [[hull1 s1]|] eqn:H1; [|discriminate].
    destruct (find_convex_hull rand fuel2 points (srand 10))
      as [[hull2 s2]|] eqn:H2; [|discriminate].
    apply (find_convex_hull_mono rng rand _ _ (Nat.max fuel1 fuel2))
      in H1; [|apply Nat.le_max_l].
    apply (find_convex_hull_mono rng rand _ _ (Nat.max fuel1 fuel2))
      in H2; [|apply Nat.le_max_r].
    intros E1 E2. injection E1 as <-. injection E2 as <-. congruence.
  - intros Hlen Hfair.
    destruct (read_points_enough x_coords y_coords ltac:(lia))
      as (points & Hread & _ & Hpts).
    rewrite <- Hpts in Hfair.
    destruct (find_convex_hull_terminates rng rand points _ Hfair)
      as (fuel & [hull s] & Hrun).
    exists fuel, (map x hull, s). intros g. unfold jarvis_march.
    now rewrite Hread, Hrun.
Qed.

(** C9, as the code has it. [jarvis_march] validates nothing: when [y] is at
    least as long as [x] it pairs [x[i]] with [y[i]] for every index of [x],
    reads nothing out of bounds, ignores the values of [y] beyond, and ends
    as it ends on [x] and the first [x.size()] values of [y]. *)
Theorem jarvis_march_ignores_surplus (fuel : nat)
    (x_coords y_coords : list float) (g : rng) :
  length x_coords <= length y_coords ->
  jarvis_march rand srand fuel x_coords y_coords g
  = jarvis_march rand srand fuel x_coords
      (firstn (length x_coords) y_coords) g /\
  jarvis_march rand srand fuel x_coords y_coords g <> OutOfBounds.
Proof.
  intros Hle.
  destruct (read_points_enough x_coords y_coords Hle)
    as (points & Hread & Hread' & _).
  unfold jarvis_march. rewrite Hread, Hread'. split; [reflexivity|].
  destruct (find_convex_hull rand fuel points (srand 10)) as [[hull s]|];
    discriminate.
Qed.

End EntryPoint.

(** The theorem's last part on a triangle, with the counting generator. *)
Lemma jarvis_march_deterministic_witness :
  exists fuel r, forall g,
    jarvis_march counter (fun seed => seed) fuel
      [0; 1; 0]%float [0; 0; 1]%float g = Returns r.
Proof.
  apply (proj2 (proj2 (jarvis_march_deterministic Z counter (fun seed => seed)
                         [0; 1; 0]%float [0; 0; 1]%float))).
  - reflexivity.
  - apply counter_fair. simpl. lia.
Defined.

(** The theorem at one [x] and two [y] values. *)
Lemma jarvis_march_ignores_surplus_witness :
  jarvis_march Glibc.rand Glibc.srand 0 [7%float] [1%float; 5%float] []
  = jarvis_march Glibc.rand Glibc.srand 0 [7%float] [1%float] [] /\
  jarvis_march Glibc.rand Glibc.srand 0 [7%float] [1%float; 5%float] []
  <> OutOfBounds.
Proof.
  apply (jarvis_march_ignores_surplus _ Glibc.rand Glibc.srand 0
           [7%float] [1%float; 5%float] []).
  simpl. lia.
Defined.

(** C9, as the specification has it, fails: a call with one [x] value and
    two [y] values is not rejected, it returns the hull of the point
    [(7,1)]. *)
Lemma jarvis_march_accepts_longer_y :
  length [7%float] <> length [1%float; 5%float] /\
  exists g',
    jarvis_march Glibc.rand Glibc.srand 0 [7%float] [1%float; 5%float] []
    = Returns ([7%float], g').
Proof.
  split; [discriminate|]. eexists. reflexivity.
Qed.

(** ** The index walk and the returned hull *)

Section Hull.

Variable rng : Type.
Variable rand : rng -> Z * rng.

(** The walk of the general branch has the shape [walk_shape], from the
    index that [find_leftmost_point] selects. *)
Lemma hull_walk_shape points fuel g h apc g' :
  points <> [] ->
  hull_walk rand fuel points g = Some (h, apc, g') ->
  exists distinct,
    walk_shape (length points) (find_leftmost_point infinity points)
               h distinct.
Proof.
  intros Hne Hrun. unfold hull_walk in Hrun.
  apply (hull_loop_shape rng rand points Hne) in Hrun.
  - destruct Hrun as (distinct & more & _ & Hshape). now exists distinct.
  - discriminate.
  - repeat constructor. intros [].
  - repeat constructor. now apply find_leftmost_point_bound.
Qed.

(** What holds of every way of [walks] holds of the walk of every run. *)
Lemma hull_walk_among (P : list nat -> bool -> Prop) points rounds :
  points <> [] ->
  Forall (fun o => match o with
                   | Some w => P (fst w) (snd w)
                   | None => False
                   end)
         (walks rounds points [find_leftmost_point infinity points] true) ->
  forall fuel g h apc g',
  hull_walk rand fuel points g = Some (h, apc, g') -> P h apc.
Proof.
  intros Hne Hall fuel g h apc g' Hrun. unfold hull_walk in Hrun.
  rewrite Forall_forall in Hall.
  destruct (hull_loop_in_walks rng rand points Hne rounds _ _ _ _ _ _ _ Hrun)
    as [Hin|Hin]; apply Hall in Hin; [destruct Hin|exact Hin].
Qed.

(** Every run on [collinear4] walks [0; 1; 2; 3; 2] and keeps the flag. *)
Lemma collinear4_walk fuel g h apc g' :
  hull_walk rand fuel collinear4 g = Some (h, apc, g') ->
  h = [0; 1; 2; 3; 2] /\ apc = true.
Proof.
  apply (hull_walk_among
           (fun h apc => h = [0; 1; 2; 3; 2] /\ apc = true) collinear4 6);
    [discriminate|].
  vm_compute. repeat (constructor; [split; reflexivity|]). constructor.
Qed.

(** Every run on [skewed5] walks one of three ways; the second one leaves
    the index [2], the point [(0,3)], out. *)
Lemma skewed5_walk fuel g h apc g' :
  hull_walk rand fuel skewed5 g = Some (h, apc, g') ->
  apc = false /\
  (h = [0; 3; 2; 4; 1] \/ h = [0; 3; 4; 1; 3] \/ h = [0; 4; 1; 3; 2; 4]).
Proof.
  apply (hull_walk_among
           (fun h apc =>
              apc = false /\
              (h = [0; 3; 2; 4; 1] \/ h = [0; 3; 4; 1; 3]
               \/ h = [0; 4; 1; 3; 2; 4])) skewed5 7);
    [discriminate|].
  vm_compute.
  repeat (constructor;
          [split; [reflexivity|];
           first [left; reflexivity
                 |right; left; reflexivity
                 |right; right; reflexivity]|]).
  constructor.
Qed.

(** Every run on [square5] walks the four corners and comes back. *)
Lemma square5_walk fuel g h apc g' :
  hull_walk rand fuel square5 g = Some (h, apc, g') ->
  h = [0; 1; 2; 3] /\ apc = false.
Proof.
  apply (hull_walk_among
           (fun h apc => h = [0; 1; 2; 3] /\ apc = false) square5 6);
    [discriminate|].
  vm_compute. repeat (constructor; [split; reflexivity|]). constructor.
Qed.

(** Every run on [collinear4] that returns, returns its four points. *)
Lemma collinear4_hull fuel g out g' :
  find_convex_hull rand fuel collinear4 g = Some (out, g') ->
  out = collinear4.
Proof.
  unfold find_convex_hull.
  change (length collinear4) with 4. cbv iota.
  destruct (hull_walk rand fuel collinear4 g) as [[[h apc] g1]|] eqn:Hrun;
    [|discriminate].
  destruct (collinear4_walk _ _ _ _ _ Hrun) as [-> ->].
  intros E. injection E as <- <-. reflexivity.
Qed.

(** What [find_convex_hull] returns after a walk of the general branch. *)
Lemma hull_walk_output points fuel g h apc g' :
  3 <= length points ->
  hull_walk rand fuel points g = Some (h, apc, g') ->
  exists distinct,
    walk_shape (length points) (find_leftmost_point infinity points)
               h distinct /\
    find_convex_hull rand fuel points g
    = Some (map (at_index points) (if apc then distinct else h), g').
Proof.
  intros Hlen Hrun.
  assert (Hne : points <> [])
    by (destruct points; simpl in *; [lia|discriminate]).
  destruct (hull_walk_shape _ _ _ _ _ _ Hne Hrun) as [distinct Hshape].
  exists distinct. split; [assumption|].
  unfold find_convex_hull. rewrite Hrun.
  destruct (length points) as [|[|[|n]]]; try lia.
  destruct (hull_points_of_shape points _ _ _ _ Hshape) as [Hfalse Htrue].
  destruct apc; [now rewrite Htrue|now rewrite Hfalse].
Qed.

(** C5, as the code has it. On three points or more, under a fair stream
    the main loop ends, and the index sequence [convex_hull] it leaves is a
    sequence of pairwise different indices of [points] that starts with the
    leftmost index, either alone (the terminal step repeated the starting
    index and the repeat was dropped) or followed by one kept entry that
    repeats an index of it other than the first and the last. When
    [all_points_collinear] is set, or the repeat was dropped, the returned
    points are those of the pairwise different indices, in order: no index
    is returned twice. *)
Theorem hull_walk_repeats_only_last (points : list point) (g : rng) :
  3 <= length points ->
  (fair rng rand (length points) g ->
   exists fuel r, hull_walk rand fuel points g = Some r) /\
  (forall fuel h apc g',
     hull_walk rand fuel points g = Some (h, apc, g') ->
     exists distinct,
       walk_shape (length points) (find_leftmost_point infinity points)
                  h distinct /\
       (apc = true \/ h = distinct ->
        find_convex_hull rand fuel points g
        = Some (map (at_index points) distinct, g'))).
Proof.
  intros Hlen.
  assert (Hne : points <> [])
    by (destruct points; simpl in *; [lia|discriminate]).
  split.
  - intros Hfair. unfold hull_walk.
    apply (hull_loop_terminates rng rand points ltac:(lia) (S (length points)));
      try assumption.
    + discriminate.
    + repeat constructor. intros [].
    + repeat constructor. now apply find_leftmost_point_bound.
    + lia.
  - intros fuel h apc g' Hrun.
    destruct (hull_walk_output points fuel g h apc g' Hlen Hrun)
      as (distinct & Hshape & Hout).
    exists distinct. split; [assumption|].
    intros [->| ->]; [exact Hout|]. now destruct apc.
Qed.

(** ** Further properties of [find_convex_hull] *)

(** X1. Every returned point is a point of the input. *)
Theorem find_convex_hull_points_of_input fuel points g out g' :
  find_convex_hull rand fuel points g = Some (out, g') ->
  Forall (fun p => In p points) out.
Proof.
  intros Hrun.
  destruct points as [|p0 [|p1 [|p2 rest]]].
  - injection Hrun as <- _. constructor.
  - injection Hrun as <- _. repeat constructor.
  - unfold find_convex_hull in Hrun. cbn [length] in Hrun.
    injection Hrun as <- _.
    pose proof (find_leftmost_point_bound infinity [p0; p1]
                  ltac:(discriminate)) as B.
    destruct (find_leftmost_point infinity [p0; p1]) as [|[|k]];
      simpl in *; try lia;
      (constructor; [simpl; auto|constructor; [simpl; auto|constructor]]).
  - set (points := p0 :: p1 :: p2 :: rest) in *.
    assert (Hlen : 3 <= length points) by (simpl; lia).
    unfold find_convex_hull in Hrun.
    change (length points) with (S (S (S (length rest)))) in Hrun.
    cbv iota in Hrun.
    destruct (hull_walk rand fuel points g) as [[[h apc] g1]|] eqn:Hwalk;
      [|discriminate].
    destruct (hull_walk_output points fuel g h apc g1 Hlen Hwalk)
      as (distinct & (_ & _ & _ & Hlt & Hshape) & Hout).
    unfold find_convex_hull in Hout. rewrite Hwalk in Hout.
    change (length points) with (S (S (S (length rest)))) in Hout.
    cbv iota in Hout. rewrite Hout in Hrun. injection Hrun as <- _.
    assert (Hh : Forall (fun i => i < length points) h).
    { destruct Hshape as [->|(c & -> & Hin & _)]; [assumption|].
      apply Forall_app. split; [assumption|]. constructor; [|constructor].
      rewrite Forall_forall in Hlt. now apply Hlt. }
    apply Forall_map.
    assert (Hidx : Forall (fun i => i < length points)
                     (if apc then distinct else h)) by now destruct apc.
    revert Hidx. apply Forall_impl. intros i Hi. now apply nth_In.
Qed.

(** X2. Under a fair stream [find_convex_hull] returns, with the same result
    from some amount of fuel on; and the index walk of a run that ends has
    at most [points.size() + 1] entries: the main loop ends within
    [points.size()] rounds. *)
Theorem find_convex_hull_returns points g :
  (fair rng rand (length points) g ->
   exists fuel r, forall fuel', fuel <= fuel' ->
     find_convex_hull rand fuel' points g = Some r) /\
  (forall fuel h apc g',
     points <> [] ->
     hull_walk rand fuel points g = Some (h, apc, g') ->
     length h <= S (length points)).
Proof.
  split.
  - intros Hfair.
    destruct (find_convex_hull_terminates rng rand points g Hfair)
      as (fuel & r & Hrun).
    exists fuel, r. intros fuel' Hle.
    exact (find_convex_hull_mono rng rand _ _ _ _ _ Hle Hrun).
  - intros fuel h apc g' Hne Hrun.
    destruct (hull_walk_shape _ _ _ _ _ _ Hne Hrun)
      as (distinct & _ & _ & Hnd & Hlt & Hshape).
    assert (Hd : length distinct <= length points).
    { apply Nat.le_trans with (length (seq 0 (length points)));
        [|rewrite length_seq; lia].
      apply NoDup_incl_length; [assumption|].
      intros i Hi. apply in_seq.
      rewrite Forall_forall in Hlt. specialize (Hlt i Hi). lia. }
    destruct Hshape as [->|(c & -> & _)]; [lia|].
    rewrite length_app. simpl. lia.
Qed.

(** On the square with an interior point every run that returns, returns
    the four corners in the order of the walk, without [(1,1)]; under a
    fair stream the run does return. *)
Theorem square5_hull_is_the_four_corners :
  (forall fuel g out g',
     find_convex_hull rand fuel square5 g = Some (out, g') ->
     out = [Point 0 0; Point 0 2; Point 2 2; Point 2 0]) /\
  (forall g, fair rng rand 5 g ->
     exists fuel g',
       find_convex_hull rand fuel square5 g
       = Some ([Point 0 0; Point 0 2; Point 2 2; Point 2 0], g')).
Proof.
  assert (Hout : forall fuel g out g',
            find_convex_hull rand fuel square5 g = Some (out, g') ->
            out = [Point 0 0; Point 0 2; Point 2 2; Point 2 0]).
  { intros fuel g out g'. unfold find_convex_hull.
    change (length square5) with 5. cbv iota.
    destruct (hull_walk rand fuel square5 g) as [[[h apc] g1]|] eqn:Hrun;
      [|discriminate].
    destruct (square5_walk _ _ _ _ _ Hrun) as [-> ->].
    intros E. injection E as <- <-. reflexivity. }
  split; [exact Hout|].
  intros g Hfair.
  destruct (find_convex_hull_terminates rng rand square5 g Hfair)
    as (fuel & [out g'] & Hrun).
  exists fuel, g'. rewrite Hrun. f_equal. f_equal.
  exact (Hout _ _ _ _ Hrun).
Qed.

End Hull.

(** The theorem on [skewed5] with the counting generator. *)
Lemma hull_walk_repeats_only_last_witness :
  (exists fuel r, hull_walk counter fuel skewed5 0%Z = Some r) /\
  (forall fuel h apc g',
     hull_walk counter fuel skewed5 0%Z = Some (h, apc, g') ->
     exists distinct,
       walk_shape 5 (find_leftmost_point infinity skewed5) h distinct /\
       (apc = true \/ h = distinct ->
        find_convex_hull counter fuel skewed5 0%Z
        = Some (map (at_index skewed5) distinct, g'))).
Proof.
  destruct (hull_walk_repeats_only_last Z counter skewed5 0%Z) as [H1 H2].
  - simpl. lia.
  - split; [|exact H2]. apply H1, counter_fair. simpl. lia.
Defined.

(** C5, as the specification has it, fails. On [collinear4] every run that
    ends (the one with the draws of glibc after [srand(10)] does) walks
    [0; 1; 2; 3; 2]: the index [2] appears twice, it is not the starting
    index [0], and it is not dropped. *)
Lemma collinear4_walk_repeats_inner_index :
  (exists g',
     hull_walk Glibc.rand 10 collinear4 (Glibc.srand 10)
     = Some ([0; 1; 2; 3; 2], true, g')) /\
  (forall (rng : Type) (rand : rng -> Z * rng) fuel g h apc g',
     hull_walk rand fuel collinear4 g = Some (h, apc, g') ->
     h = [0; 1; 2; 3; 2]) /\
  count_occ Nat.eq_dec [0; 1; 2; 3; 2] 2 = 2 /\
  hd 0 [0; 1; 2; 3; 2] <> 2.
Proof.
  split; [eexists; vm_compute; reflexivity|].
  split; [intros rng rand fuel g h apc g' Hrun;
          exact (proj1 (collinear4_walk rng rand _ _ _ _ _ Hrun))|].
  split; [reflexivity|discriminate].
Qed.

(** ** Collinear input *)

(** The test of one point, when it is made and when it is skipped. *)
Lemma test_one_tested points convex_hull e c apc t :
  t <> c -> t <> e ->
  test_one points convex_hull e (c, apc) t
  = let r := find_orientation
               (new_triplet (at_index points e) (at_index points t)
                            (at_index points c)) in
    let c1 := if right_turn r then t else c in
    (if collinearity r && found c1 convex_hull
        && negb (found t (tl convex_hull)) then t else c1,
     if negb (collinearity r) then false else apc).
Proof.
  intros Htc Hte. unfold test_one.
  apply Nat.eqb_neq in Htc. apply Nat.eqb_neq in Hte.
  now rewrite Htc, Hte.
Qed.

Lemma test_one_skipped points convex_hull e c apc t :
  t = c \/ t = e -> test_one points convex_hull e (c, apc) t = (c, apc).
Proof.
  intros H. unfold test_one.
  destruct H as [->| ->]; rewrite Nat.eqb_refl; simpl;
    [reflexivity|now rewrite andb_false_r].
Qed.

Lemma last_In (l : list nat) : l <> [] -> In (last l 0) l.
Proof.
  intros H. rewrite (app_removelast_last 0 H) at 2.
  apply in_or_app. right. now left.
Qed.

Lemma not_found_tl j (l : list nat) : ~ In j l -> found j (tl l) = false.
Proof.
  intros H. apply found_not_In. intros Hin. apply H.
  destruct l; [destruct Hin|now right].
Qed.

(** One round of the main loop on a line. *)
Section OnLine.

Variable points : list point.
Variable pos : nat -> Z.
Hypothesis Hline : on_line points pos.

Variable convex_hull : list nat.
Hypothesis Hswept : swept (length points) pos convex_hull.

Local Abbreviation e := (last convex_hull 0).
Local Abbreviation tested := (tested (length points) pos convex_hull).

(** One test keeps [tested]. *)
Lemma test_one_on_line k c :
  k < length points -> tested k c ->
  tested (S k) (fst (test_one points convex_hull e (c, true) k)) /\
  snd (test_one points convex_hull e (c, true) k) = true.
Proof.
  intros Hk (Hc & Hce & Hout & Hin).
  destruct Hswept as (Hne & Hnd & Hlt & Hinc & Hleft & Hright).
  assert (He : In e convex_hull) by now apply last_In.
  assert (Hen : e < length points)
    by (rewrite Forall_forall in Hlt; now apply Hlt).
  destruct (Nat.eq_dec k c) as [->|Hkc].
  { rewrite test_one_skipped by now left. simpl. split; [|reflexivity].
    repeat split; auto.
    - intros H t Ht Ht1 Ht2. apply Hout; auto. lia.
    - intros H t Ht. destruct (Nat.eq_dec t c) as [->|]; auto.
      apply Hin; auto. lia. }
  destruct (Nat.eq_dec k e) as [->|Hke].
  { rewrite test_one_skipped by now right. simpl. split; [|reflexivity].
    repeat split; auto.
    - intros H t Ht Ht1 Ht2. destruct (Nat.eq_dec t e) as [->|]; [easy|].
      apply Hout; auto. lia.
    - intros H t Ht. destruct (Nat.eq_dec t e) as [->|]; auto.
      apply Hin; auto. lia. }
  rewrite test_one_tested by assumption.
  destruct Hline as [Hinj Htest].
  destruct (Htest e k c Hen Hk Hc ltac:(auto) Hkc ltac:(auto)) as [Hcol Hrt].
  cbv zeta. rewrite Hcol. simpl.
  split; [|reflexivity].
  destruct (in_dec Nat.eq_dec c convex_hull) as [Hcin|Hcout];
    destruct (in_dec Nat.eq_dec k convex_hull) as [Hkin|Hkout].
  - (* both on the hull *)
    assert (Hres : forall c1, c1 = k \/ c1 = c -> tested (S k) c1).
    { intros c1 Hc1. repeat split.
      - destruct Hc1 as [->| ->]; assumption.
      - destruct Hc1 as [->| ->]; assumption.
      - intros H. destruct Hc1 as [->| ->]; contradiction.
      - intros _ t Ht. destruct (Nat.eq_dec t k) as [->|]; auto.
        apply Hin; auto. lia. }
    apply Hres.
    destruct (right_turn _); destruct (found _ convex_hull && _); auto.
  - (* the candidate on the hull, the test point beyond *)
    pose proof (Hleft c Hcin Hce). pose proof (Hright k Hk Hkout).
    destruct (right_turn _) eqn:R; [pose proof (proj1 Hrt eq_refl); lia|].
    apply found_In in Hcin. rewrite Hcin, (not_found_tl _ _ Hkout). simpl.
    repeat split; auto.
    + intros _ t Ht Ht1 Ht2. exfalso. apply Ht1. apply Hin.
      * now apply found_In.
      * lia.
    + intros Habs. contradiction.
  - (* the candidate beyond, the test point on the hull *)
    pose proof (Hleft k Hkin Hke). pose proof (Hright c Hc Hcout).
    destruct (right_turn _) eqn:R; [pose proof (proj1 Hrt eq_refl); lia|].
    apply found_not_In in Hcout. rewrite Hcout. simpl.
    apply found_not_In in Hcout.
    repeat split; auto.
    + intros _ t Ht Ht1 Ht2. destruct (Nat.eq_dec t k) as [->|]; [easy|].
      apply Hout; auto. lia.
    + intros Habs. contradiction.
  - (* both beyond *)
    pose proof (Hright k Hk Hkout). pose proof (Hright c Hc Hcout).
    pose proof (Hinj k c Hk Hc Hkc).
    destruct (right_turn _) eqn:R.
    + pose proof (proj1 Hrt eq_refl) as B.
      apply found_not_In in Hkout. rewrite Hkout. simpl.
      apply found_not_In in Hkout.
      repeat split; auto.
      * intros _ t Ht Ht1 Ht2.
        destruct (Nat.eq_dec t c) as [->|Htc]; [lia|].
        assert (pos c < pos t)%Z by (apply Hout; auto; lia). lia.
      * intros Habs. contradiction.
    + assert (~ (pos e < pos k < pos c \/ pos c < pos k < pos e)%Z)
        by (intros B; apply Hrt in B; discriminate).
      apply found_not_In in Hcout. rewrite Hcout. simpl.
      apply found_not_In in Hcout.
      repeat split; auto.
      * intros _ t Ht Ht1 Ht2.
        destruct (Nat.eq_dec t k) as [->|]; [lia|].
        apply Hout; auto. lia.
      * intros Habs. contradiction.
Qed.

(** The test loop ends with the nearest point beyond the anchor, or, with
    no point beyond it, with a point of the hull; the flag stays set. *)
Lemma refine_candidate_on_line c0 :
  c0 < length points -> c0 <> e ->
  tested (length points)
         (fst (refine_candidate points convex_hull e (c0, true))) /\
  snd (refine_candidate points convex_hull e (c0, true)) = true.
Proof.
  intros Hc0 Hce. unfold refine_candidate.
  assert (H : forall k, k <= length points ->
            tested k (fst (fold_left (test_one points convex_hull e)
                                     (seq 0 k) (c0, true))) /\
            snd (fold_left (test_one points convex_hull e)
                           (seq 0 k) (c0, true)) = true).
  { induction k as [|k IH]; intros Hk.
    - simpl. split; [|reflexivity]. repeat split; auto; intros; lia.
    - destruct (IH ltac:(lia)) as [IH1 IH2].
      rewrite seq_S, fold_left_app. cbn [fold_left plus].
      destruct (fold_left (test_one points convex_hull e) (seq 0 k) (c0, true))
        as [c apc]. simpl in IH1, IH2. subst apc.
      apply test_one_on_line; [lia|assumption]. }
  apply H. lia.
Qed.

End OnLine.

Lemma map_at_index_seq (points : list point) :
  map (at_index points) (seq 0 (length points)) = points.
Proof.
  induction points as [|p points IH]; [reflexivity|].
  cbn [length seq map]. f_equal.
  rewrite <- seq_shift, map_map. exact IH.
Qed.

Section LineWalk.

Variable rng : Type.
Variable rand : rng -> Z * rng.
Variable points : list point.
Variable pos : nat -> Z.
Hypothesis Hline : on_line points pos.

(** Appending the chosen candidate keeps [swept]. *)
Lemma swept_push convex_hull c :
  swept (length points) pos convex_hull ->
  tested (length points) pos convex_hull (length points) c ->
  ~ In c convex_hull ->
  swept (length points) pos (convex_hull ++ [c]).
Proof.
  intros (Hne & Hnd & Hlt & Hinc & Hleft & Hright) (Hc & Hce & Hout & _) Hcout.
  assert (Hbelow : forall j, In j convex_hull -> (pos j < pos c)%Z).
  { intros j Hj. pose proof (Hright c Hc Hcout).
    destruct (Nat.eq_dec j (last convex_hull 0)) as [->|Hjl]; [assumption|].
    pose proof (Hleft j Hj Hjl). lia. }
  repeat split.
  - now destruct convex_hull.
  - apply NoDup_app; [assumption|repeat constructor; intros []|].
    intros i Hi [<-|[]]. contradiction.
  - apply Forall_app. split; [assumption|]. now constructor.
  - intros a b Hab Hb. rewrite length_app in Hb. simpl in Hb.
    rewrite (app_nth1 _ _ _ (n:=a)) by lia.
    destruct (Nat.eq_dec b (length convex_hull)) as [->|Hbl].
    + rewrite nth_middle. apply Hbelow, nth_In. lia.
    + rewrite app_nth1 by lia. apply Hinc; lia.
  - rewrite last_last. intros j Hj Hjc.
    apply in_app_or in Hj. destruct Hj as [Hj|[Hj|[]]]; [|congruence].
    now apply Hbelow.
  - rewrite last_last. intros j Hj Hjout.
    apply Hout; auto.
    + intros Hin. apply Hjout, in_or_app. now left.
    + intros ->. apply Hjout, in_or_app. right. now left.
Qed.

(** The main loop on a line, from a hull that is [swept]: the flag stays
    set and the walk takes every point in order of position. *)
Lemma hull_loop_on_line :
  points <> [] ->
  forall fuel convex_hull g h apc g',
  swept (length points) pos convex_hull ->
  hull_loop rand fuel points convex_hull true g = Some (h, apc, g') ->
  apc = true /\
  exists distinct more,
    distinct = convex_hull ++ more /\
    swept (length points) pos distinct /\
    (forall j, j < length points -> In j distinct) /\
    2 <= length distinct /\
    (h = distinct \/
     exists c, h = distinct ++ [c] /\ In c distinct /\
               c <> hd 0 distinct /\ c <> last distinct 0).
Proof.
  intros Hpts. induction fuel as [|fuel IH];
    intros convex_hull g h apc g' Hswept Hrun; [discriminate|].
  cbn [hull_loop] in Hrun.
  destruct (find_new_point rand fuel points [last convex_hull 0] g)
    as [[c0 g1]|] eqn:Hdraw; [|discriminate].
  apply (find_new_point_sound _ _ _ _ _ Hpts) in Hdraw.
  destruct Hdraw as [Hc0 Hexc].
  assert (Hce0 : c0 <> last convex_hull 0) by (intros ->; apply Hexc; now left).
  destruct (refine_candidate_on_line points pos Hline convex_hull Hswept
              c0 Hc0 Hce0) as [Htested Hflag].
  destruct (refine_candidate points convex_hull (last convex_hull 0) (c0, true))
    as [c apc1] eqn:Href.
  simpl in Htested, Hflag. subst apc1.
  assert (Hne : convex_hull <> []) by apply Hswept.
  rewrite (update_hull_cases _ _ Hne) in Hrun.
  destruct (found c convex_hull) eqn:F.
  - apply found_In in F.
    destruct Htested as (Hc & Hce & _ & Hall).
    assert (Hlen : 2 <= length convex_hull).
    { destruct convex_hull as [|i [|j rest]]; simpl in *; lia. }
    assert (Hres : apc = true /\ g1 = g' /\
                   (h = convex_hull \/
                    h = convex_hull ++ [c] /\ c <> hd 0 convex_hull)).
    { destruct (hd 0 convex_hull =? c) eqn:Ehd;
        injection Hrun as <- <- <-; repeat split; auto.
      right. split; [reflexivity|]. apply Nat.eqb_neq in Ehd. congruence. }
    destruct Hres as (-> & _ & Hh). split; [reflexivity|].
    exists convex_hull, []. split; [now rewrite app_nil_r|].
    split; [assumption|]. split; [intros j Hj; now apply (Hall F)|].
    split; [assumption|].
    destruct Hh as [->|[-> Hhd]]; [now left|right].
    exists c. repeat split; auto.
  - apply found_not_In in F.
    pose proof (swept_push convex_hull c Hswept Htested F) as Hswept'.
    destruct (IH _ _ _ _ _ Hswept' Hrun)
      as (Hapc & distinct & more & Hd & Hrest).
    split; [exact Hapc|]. exists distinct, (c :: more).
    split; [now rewrite Hd, <- app_assoc|exact Hrest].
Qed.

End LineWalk.

Section EndToEnd.

Variable rng : Type.
Variable rand : rng -> Z * rng.

(** C2, as the code has it. Take three or more points that the orientation
    test places on one line ([on_line]) and whose leftmost point, as
    [find_leftmost_point] selects it, is an end of the line (it has the
    least position). Then [all_points_collinear] remains true, and what
    [find_convex_hull] returns is all the input points, each once, in order
    of position: from that end out to the far end, both extreme endpoints
    and every point between them; under a fair stream it does return. For
    [(0,0), (1,0), (2,0), (3,0)] every run that returns, returns these four
    points in this order, and under a fair stream the run returns. *)
Theorem collinear_hull_runs_end_to_end :
  (forall points pos g,
     3 <= length points ->
     on_line points pos ->
     (forall j, j < length points ->
        j <> find_leftmost_point infinity points ->
        (pos (find_leftmost_point infinity points) < pos j)%Z) ->
     (fair rng rand (length points) g ->
      exists fuel r, find_convex_hull rand fuel points g = Some r) /\
     (forall fuel h apc g',
        hull_walk rand fuel points g = Some (h, apc, g') -> apc = true) /\
     (forall fuel out g',
        find_convex_hull rand fuel points g = Some (out, g') ->
        exists idxs,
          out = map (at_index points) idxs /\
          Permutation idxs (seq 0 (length points)) /\
          increasing pos idxs /\
          Permutation out points /\
          hd 0 idxs = find_leftmost_point infinity points /\
          forall j, j < length points -> (pos j <= pos (last idxs 0%nat))%Z))
  /\
  (forall fuel g out g',
     find_convex_hull rand fuel collinear4 g = Some (out, g') ->
     out = collinear4) /\
  (forall g, fair rng rand 4 g ->
     exists fuel g',
       find_convex_hull rand fuel collinear4 g = Some (collinear4, g')).
Proof.
  split; [|split].
  - intros points pos g Hlen Hline Hstart.
    assert (Hpts : points <> [])
      by (destruct points; simpl in *; [lia|discriminate]).
    set (s := find_leftmost_point infinity points) in *.
    assert (Hs : s < length points) by now apply find_leftmost_point_bound.
    assert (Hswept : swept (length points) pos [s]).
    { repeat split.
      - discriminate.
      - repeat constructor. intros [].
      - repeat constructor. exact Hs.
      - intros a b Hab Hb. simpl in Hb. lia.
      - intros j [<-|[]] Hj. now elim Hj.
      - intros j Hj Hout. apply Hstart; [assumption|].
        intros ->. apply Hout. now left. }
    split; [apply find_convex_hull_terminates|]. split.
    + intros fuel h apc g' Hrun. unfold hull_walk in Hrun. fold s in Hrun.
      exact (proj1 (hull_loop_on_line rng rand points pos Hline Hpts
                      _ _ _ _ _ _ Hswept Hrun)).
    + intros fuel out g' Hrun. unfold find_convex_hull in Hrun.
      destruct (length points) as [|[|[|n]]] eqn:En; try lia.
      rewrite <- En in *.
      destruct (hull_walk rand fuel points g) as [[[h apc] g1]|] eqn:Hwalk;
        [|discriminate].
      injection Hrun as <- <-.
      unfold hull_walk in Hwalk. fold s in Hwalk.
      destruct (hull_loop_on_line rng rand points pos Hline Hpts
                  _ _ _ _ _ _ Hswept Hwalk)
        as (-> & d & more & Hd & Hsw & Hall & Hlen2 & Hshape).
      destruct Hsw as (Hne & Hnd & Hlt & Hinc & Hleft & _).
      assert (Hhd : hd 0 d = s) by (rewrite Hd; reflexivity).
      assert (Hws : walk_shape (length points) s h d).
      { repeat split; auto.
        destruct Hshape as [->|(c & -> & Hin & Hc1 & Hc2)]; [now left|].
        right. exists c. repeat split; auto. congruence. }
      rewrite (proj2 (hull_points_of_shape points _ _ _ _ Hws)).
      assert (Hperm : Permutation d (seq 0 (length points))).
      { apply NoDup_Permutation; [assumption|apply seq_NoDup|].
        intros j. rewrite in_seq. split.
        - intros Hj. rewrite Forall_forall in Hlt. specialize (Hlt j Hj). lia.
        - intros Hj. apply Hall. lia. }
      exists d. split; [reflexivity|]. split; [exact Hperm|].
      split; [exact Hinc|]. split.
      * rewrite <- (map_at_index_seq points) at 2.
        now apply Permutation_map.
      * split; [exact Hhd|]. intros j Hj.
        destruct (Nat.eq_dec j (last d 0)) as [->|Hjl]; [lia|].
        pose proof (Hleft j (Hall j Hj) Hjl). lia.
  - apply collinear4_hull.
  - intros g Hfair.
    destruct (find_convex_hull_terminates rng rand collinear4 g Hfair)
      as (fuel & [out g'] & Hrun).
    exists fuel, g'. rewrite Hrun. f_equal. f_equal.
    exact (collinear4_hull _ _ _ _ _ _ Hrun).
Qed.

End EndToEnd.

(** The orientation test places [diagonal4] on a line. *)
Lemma diagonal4_on_line : on_line diagonal4 diagonal4_pos.
Proof.
  split.
  - intros i j Hi Hj Hij. simpl in Hi, Hj.
    destruct i as [|[|[|[|i]]]]; try lia;
      destruct j as [|[|[|[|j]]]]; try lia; discriminate.
  - intros e t c He Ht Hc Het Htc Hec. simpl in He, Ht, Hc. cbv zeta.
    destruct e as [|[|[|[|e]]]]; try lia;
      destruct t as [|[|[|[|t]]]]; try lia;
      destruct c as [|[|[|[|c]]]]; try lia;
      (split; [reflexivity|]);
      match goal with
      | |- context [right_turn ?r] =>
          let v := eval vm_compute in (right_turn r) in
          change (right_turn r) with v
      end;
      unfold diagonal4_pos; simpl;
      (split; [first [discriminate|intros _; lia]
              |first [reflexivity|lia]]).
Qed.

(** The theorem on [diagonal4], whose leftmost point [(0,0)] is an end:
    the run with the counting generator returns the four points from
    [(0,0)] to [(3,3)]. *)
Lemma collinear_hull_runs_end_to_end_witness :
  let out := [Point 0 0; Point 1 1; Point 2 2; Point 3 3] in
  exists idxs,
    out = map (at_index diagonal4) idxs /\
    Permutation idxs (seq 0 (length diagonal4)) /\
    increasing diagonal4_pos idxs /\
    Permutation out diagonal4 /\
    hd 0 idxs = find_leftmost_point infinity diagonal4 /\
    forall j, j < length diagonal4 ->
      (diagonal4_pos j <= diagonal4_pos (last idxs 0%nat))%Z.
Proof.
  destruct (proj1 (collinear_hull_runs_end_to_end Z counter)
              diagonal4 diagonal4_pos 0%Z) as (_ & _ & H).
  - simpl. lia.
  - exact diagonal4_on_line.
  - intros j Hj Hne.
    change (find_leftmost_point infinity diagonal4) with 1 in *.
    simpl in Hj. unfold diagonal4_pos.
    destruct j as [|[|[|[|j]]]]; simpl; lia.
  - eapply (H 10). vm_compute. reflexivity.
Defined.

(** Where the leftmost point is not an end of the line the walk can stop
    short: on [vertical4], with the draws of glibc after [srand(10)], the
    point [(0,3)] is not returned. *)
Lemma vertical4_loses_endpoint :
  exists g',
    find_convex_hull Glibc.rand 10 vertical4 (Glibc.srand 10)
    = Some ([Point 0 1; Point 0 2; Point 0 0], g').
Proof. eexists. vm_compute. reflexivity. Qed.

(** C2, as the specification has it, fails. On [(0,0), (1,0), (2,0), (3,0)]
    the flag [all_points_collinear] remains true, and every run that returns
    (the one with the draws of glibc after [srand(10)] does) returns the four
    points, the interior points [(1,0)] and [(2,0)] included, not the two
    endpoints alone. *)
Lemma collinear4_hull_keeps_interior_points :
  (exists g',
     hull_walk Glibc.rand 10 collinear4 (Glibc.srand 10)
     = Some ([0; 1; 2; 3; 2], true, g')) /\
  (exists g',
     find_convex_hull Glibc.rand 10 collinear4 (Glibc.srand 10)
     = Some ([Point 0 0; Point 1 0; Point 2 0; Point 3 0], g')) /\
  (forall (rng : Type) (rand : rng -> Z * rng) fuel g out g',
     find_convex_hull rand fuel collinear4 g = Some (out, g') ->
     In (Point 1 0) out /\ In (Point 2 0) out /\
     out <> [Point 0 0; Point 3 0]).
Proof.
  split; [eexists; vm_compute; reflexivity|].
  split; [eexists; vm_compute; reflexivity|].
  intros rng rand fuel g out g' Hrun.
  rewrite (collinear4_hull rng rand _ _ _ _ Hrun). unfold collinear4.
  split; [right; now left|]. split; [right; right; now left|]. discriminate.
Qed.

(** ** The hull misses an extreme point *)

(** C1. On [skewed5], that is [x = (0,0,0,0,1)] and [y = (1,0,3,2,0)], with
    the draws of glibc after [srand(10)] (or with the draws 3, 0, 3, 2
    replayed) the returned hull is [(0,1), (0,2), (1,0), (0,0), (0,2)]:
    every point of it has [y <= 2], and the input point [(0,3)], a vertex
    of the true hull, lies strictly beyond the line [y = 2]. *)
Theorem find_convex_hull_misses_extreme_point :
  let hull := [Point 0 1; Point 0 2; Point 1 0; Point 0 0; Point 0 2] in
  (exists g',
     find_convex_hull Glibc.rand 10 skewed5 (Glibc.srand 10)
     = Some (hull, g')) /\
  find_convex_hull replay 10 skewed5 [3; 0; 3; 2]%Z = Some (hull, []) /\
  (exists g',
     jarvis_march Glibc.rand Glibc.srand 10
       [0; 0; 0; 0; 1]%float [1; 0; 3; 2; 0]%float []
     = Returns (map x hull, g')) /\
  In (Point 0 3) skewed5 /\
  Forall (fun q => (y q <=? 2)%float = true) hull /\
  (2 <? y (Point 0 3))%float = true.
Proof.
  intros hull. subst hull.
  split; [eexists; vm_compute; reflexivity|].
  split; [vm_compute; reflexivity|].
  split; [eexists; vm_compute; reflexivity|].
  split; [right; right; now left|].
  split; [repeat constructor|reflexivity].
Qed.

(** ** The further properties on sample inputs *)

(** The run on [skewed5] with the draws of glibc after [srand(10)] returns
    points of [skewed5] only. *)
Lemma find_convex_hull_points_of_input_witness :
  Forall (fun p => In p skewed5)
         [Point 0 1; Point 0 2; Point 1 0; Point 0 0; Point 0 2].
Proof.
  apply (find_convex_hull_points_of_input _ Glibc.rand 10 skewed5
           (Glibc.srand 10) _
           (snd (Glibc.rand
                   (advance _ Glibc.rand 5 (Glibc.srand 10))))).
  vm_compute. reflexivity.
Defined.

(** [find_convex_hull] returns on [skewed5] with the counting generator. *)
Lemma find_convex_hull_returns_witness :
  exists fuel r, forall fuel', fuel <= fuel' ->
    find_convex_hull counter fuel' skewed5 0%Z = Some r.
Proof.
  apply (proj1 (find_convex_hull_returns Z counter skewed5 0%Z)).
  apply counter_fair. simpl. lia.
Defined.

(** The square with the counting generator. *)
Lemma square5_hull_is_the_four_corners_witness :
  exists fuel g',
    find_convex_hull counter fuel square5 0%Z
    = Some ([Point 0 0; Point 0 2; Point 2 2; Point 2 0], g').
Proof.
  apply (proj2 (square5_hull_is_the_four_corners Z counter)).
  apply counter_fair. lia.
Defined.

(** * Further properties of the components *)

(** ** [find_orientation] *)

(** No two of the tests of [find_orientation] that exclude each other hold
    together. *)
Lemma orientation_tests_exclusive (d p : float) :
  ((0 <? d)%float = true -> (d =? 0)%float = false /\ (d <? 0)%float = false)
  /\ ((d =? 0)%float = true -> (d <? 0)%float = false)
  /\ ((p <? 0)%float = true -> (0 <? p)%float = false).
Proof.
  split; [|split].
  - intros H. split.
    + destruct (d =? 0)%float eqn:E; [|reflexivity].
      apply eqb_not_ltb in E. destruct E as [_ E]. congruence.
    + exact (ltb_asym _ _ H).
  - intros H. exact (proj1 (eqb_not_ltb _ _ H)).
  - exact (ltb_asym _ _).
Qed.

(** The flags that [find_orientation] leaves on a triplet whose flags are
    clear, and a second call. *)
Lemma find_orientation_flags_of (t : triplet_of_points) :
  right_turn t = false -> collinearity t = false ->
  let r := find_orientation t in
  (right_turn r = true <->
     (0 <? determinent t)%float = true \/
     (determinent t =? 0)%float = true /\ (dot_product t <? 0)%float = true)
  /\
  (collinearity r = true <->
     (determinent t =? 0)%float = true /\
     ((dot_product t <? 0)%float = true \/ (0 <? dot_product t)%float = true))
  /\
  find_orientation r = r.
Proof.
  intros Hr Hc r. subst r.
  destruct (orientation_tests_exclusive (determinent t) (dot_product t))
    as (E1 & E2 & E3).
  unfold find_orientation.
  destruct (0 <? determinent t)%float eqn:A.
  - destruct (E1 eq_refl) as [B C]. simpl. rewrite A.
    repeat split; auto; try discriminate.
    intros [H _]. congruence.
  - destruct (determinent t =? 0)%float eqn:B; simpl.
    + destruct (dot_product t <? 0)%float eqn:C; simpl.
      * rewrite A, B, C. simpl. repeat split; auto; discriminate.
      * destruct (0 <? dot_product t)%float eqn:D; simpl.
        -- rewrite A, B, C, D. simpl.
           repeat split; auto; try discriminate.
           intros [H|[_ H]]; discriminate.
        -- rewrite (E2 eq_refl), A, B, C, D, (E2 eq_refl), Hr, Hc. simpl.
           repeat split; try discriminate.
           ++ intros [H|[_ H]]; discriminate.
           ++ intros [_ [H|H]]; discriminate.
    + destruct (determinent t <? 0)%float eqn:C; simpl.
      * rewrite A, B, C. simpl. repeat split; try discriminate.
        -- intros [H|[H _]]; discriminate.
        -- intros [H _]; discriminate.
      * rewrite A, B, C, Hr, Hc. simpl. repeat split; try discriminate.
        -- intros [H|[H _]]; discriminate.
        -- intros [H _]; discriminate.
Qed.

(** X3. On a triplet as its constructor leaves it, [find_orientation] sets
    [right_turn] exactly when the determinant is positive, or zero with a
    negative dot product, and [collinearity] exactly when the determinant is
    zero and the dot product is not (so never when a product is NaN, and
    never when both are zero); a second call changes nothing. *)
Theorem find_orientation_flags (p1 p2 p3 : point) :
  let t := new_triplet p1 p2 p3 in
  let r := find_orientation t in
  (right_turn r = true <->
     (0 <? determinent t)%float = true \/
     (determinent t =? 0)%float = true /\ (dot_product t <? 0)%float = true)
  /\
  (collinearity r = true <->
     (determinent t =? 0)%float = true /\
     ((dot_product t <? 0)%float = true \/ (0 <? dot_product t)%float = true))
  /\
  find_orientation r = r.
Proof.
  intros t. apply find_orientation_flags_of; reflexivity.
Qed.

(** ** [find_leftmost_point] *)

(** X4. [find_leftmost_point] returns an index of a non-empty collection,
    and it returns index 0 whenever no point has its [x] strictly below
    [leftmost_val]: on the empty collection, and when every [x] is
    [+infinity] or NaN while [leftmost_val] is [+infinity]. *)
Theorem find_leftmost_point_default (leftmost_val : float)
    (points : list point) :
  (points <> [] -> find_leftmost_point leftmost_val points < length points) /\
  ((forall j, j < length points ->
      (x (at_index points j) <? leftmost_val)%float = false) ->
   find_leftmost_point leftmost_val points = 0) /\
  (leftmost_val = infinity ->
   (forall j, j < length points ->
      x (at_index points j) = infinity \/
      (x (at_index points j) =? x (at_index points j))%float = false) ->
   find_leftmost_point leftmost_val points = 0).
Proof.
  assert (Hdef : (forall j, j < length points ->
                    (x (at_index points j) <? leftmost_val)%float = false) ->
                 find_leftmost_point leftmost_val points = 0).
  { intros Hall. unfold find_leftmost_point.
    destruct (leftmost_loop_cases points 0 leftmost_val 0)
      as [[E _]|(k & Hk & _ & Hlt & _)]; [exact E|].
    rewrite (Hall k Hk) in Hlt. discriminate. }
  split; [apply find_leftmost_point_bound|]. split; [exact Hdef|].
  intros -> Hall. apply Hdef. intros j Hj.
  destruct (x (at_index points j) <? infinity)%float eqn:E; [|reflexivity].
  destruct (Hall j Hj) as [H|H].
  - rewrite H in E. now rewrite ltb_irrefl in E.
  - rewrite (proj1 (ltb_number _ _ E)) in H. discriminate.
Qed.

(** The theorem on two points at [+infinity] and NaN. *)
Lemma find_leftmost_point_default_witness :
  find_leftmost_point infinity [Point infinity 0; Point nan 1] = 0.
Proof.
  apply (proj2 (proj2 (find_leftmost_point_default infinity
                         [Point infinity 0; Point nan 1]))); [reflexivity|].
  intros [|[|j]] Hj; simpl in Hj; try lia; [left|right]; reflexivity.
Defined.

(** ** [find_new_point] *)

Section Selection.

Variable rng : Type.
Variable rand : rng -> Z * rng.

(** X5. What [find_new_point] returns is the first draw [rand() % n] that is
    not in [exceptions]: every earlier draw is in [exceptions], and the
    generator has been advanced by exactly the draws up to that one. *)
Theorem find_new_point_first_allowed_draw (fuel : nat) (points : list point)
    (exceptions : list nat) (g : rng) (new_point : nat) (g' : rng) :
  find_new_point rand fuel points exceptions g = Some (new_point, g') ->
  exists k,
    k < fuel /\
    new_point = draw rng rand (length points) g k /\
    g' = advance rng rand (S k) g /\
    ~ In new_point exceptions /\
    forall j, j < k -> In (draw rng rand (length points) g j) exceptions.
Proof.
  revert g. induction fuel as [|fuel IH]; intros g Hrun; [discriminate|].
  rewrite find_new_point_step in Hrun.
  destruct (found (draw rng rand (length points) g 0) exceptions) eqn:F.
  - destruct (IH _ Hrun) as (k & Hk & Hi & Hg & Hout & Hbefore).
    exists (S k). split; [lia|]. split; [exact Hi|]. split; [exact Hg|].
    split; [exact Hout|].
    intros [|j] Hj; [now apply found_In|]. apply (Hbefore j). lia.
  - injection Hrun as <- <-. exists 0. split; [lia|].
    split; [reflexivity|]. split; [reflexivity|].
    split; [now apply found_not_In|]. intros j Hj. lia.
Qed.

(** X6. When [exceptions] holds every index of a non-empty [points], the
    loop of [find_new_point] never ends: no amount of fuel gives a
    result, whatever the generator draws. *)
Theorem find_new_point_all_excluded (points : list point)
    (exceptions : list nat) :
  points <> [] ->
  (forall i, i < length points -> In i exceptions) ->
  forall fuel g, find_new_point rand fuel points exceptions g = None.
Proof.
  intros Hne Hall. induction fuel as [|fuel IH]; intros g; [reflexivity|].
  rewrite find_new_point_step.
  assert (Hin : In (draw rng rand (length points) g 0) exceptions).
  { apply Hall. unfold draw.
    assert (0 < Z.of_nat (length points))%Z
      by (destruct points; [congruence|simpl; lia]).
    pose proof (Z.mod_pos_bound (fst (rand (advance rng rand 0 g)))
                  (Z.of_nat (length points)) H). lia. }
  apply found_In in Hin. rewrite Hin. apply IH.
Qed.

End Selection.

(** The theorem with the counting generator started at the excluded index
    [1] of three points. *)
Lemma find_new_point_first_allowed_draw_witness :
  exists k,
    k < 2 /\
    2 = draw Z counter 3 1%Z k /\
    3%Z = advance Z counter (S k) 1%Z /\
    ~ In 2 [1] /\
    forall j, j < k -> In (draw Z counter 3 1%Z j) [1].
Proof.
  apply (find_new_point_first_allowed_draw Z counter 2
           [Point 0 0; Point 1 0; Point 0 1] [1] 1%Z 2 3%Z).
  reflexivity.
Defined.

(** The theorem on one point with its index excluded. *)
Lemma find_new_point_all_excluded_witness :
  find_new_point counter 1000 [Point 0 0] [0] 5%Z = None.
Proof.
  apply (find_new_point_all_excluded Z counter [Point 0 0] [0]).
  - discriminate.
  - intros i Hi. simpl in Hi. left. lia.
Defined.

(** ** The candidate test loop *)

(** One test either keeps the candidate, and then the test point, if it was
    tested, makes no right turn against it, or moves the candidate to the
    test point. *)
Lemma test_one_candidate points convex_hull e c apc t :
  let c1 := fst (test_one points convex_hull e (c, apc) t) in
  (c1 = c /\
   (t <> e -> t <> c ->
    right_turn (find_orientation
                  (new_triplet (at_index points e) (at_index points t)
                               (at_index points c))) = false))
  \/ c1 = t.
Proof.
  unfold test_one.
  destruct (t =? c) eqn:Etc; simpl.
  { left. split; [reflexivity|]. apply Nat.eqb_eq in Etc. congruence. }
  destruct (t =? e) eqn:Ete; simpl.
  { left. split; [reflexivity|]. apply Nat.eqb_eq in Ete. congruence. }
  destruct (right_turn _) eqn:R.
  - right. now destruct (_ && _ && _).
  - destruct (_ && _ && _); [right; reflexivity|left].
    split; [reflexivity|]. intros _ _. reflexivity.
Qed.

(** After a run of tests the candidate is either the incoming one, which no
    test point of the run makes a right turn against, or a test point of the
    run which no later one makes a right turn against. *)
Lemma fold_test_one_last_change points convex_hull e :
  forall ts c apc,
  let c' := fst (fold_left (test_one points convex_hull e) ts (c, apc)) in
  (c' = c /\
   forall t, In t ts -> t <> e -> t <> c ->
     right_turn (find_orientation
                   (new_triplet (at_index points e) (at_index points t)
                                (at_index points c))) = false)
  \/
  (exists l1 l2, ts = l1 ++ c' :: l2 /\
   forall t, In t l2 -> t <> e -> t <> c' ->
     right_turn (find_orientation
                   (new_triplet (at_index points e) (at_index points t)
                                (at_index points c'))) = false).
Proof.
  induction ts as [|t ts IH]; intros c apc; cbn [fold_left].
  - left. split; [reflexivity|]. intros t [].
  - destruct (test_one points convex_hull e (c, apc) t) as [c1 apc1] eqn:E.
    pose proof (test_one_candidate points convex_hull e c apc t) as T.
    rewrite E in T. simpl in T.
    destruct (IH c1 apc1) as [[Hc Hall]|(l1 & l2 & Hts & Hall)].
    + destruct T as [[-> Ht]| ->].
      * left. split; [exact Hc|].
        intros t' [<-|Hin] He Hne; [now apply Ht|now apply Hall].
      * right. exists [], ts. split; [now rewrite Hc|].
        rewrite Hc. exact Hall.
    + right. exists (t :: l1), l2. split; [|exact Hall].
      simpl. now rewrite <- Hts.
Qed.

(** In [0 .. n-1] what follows an entry is what is larger. *)
Lemma seq_after n l1 c l2 t :
  seq 0 n = l1 ++ c :: l2 -> c < t -> t < n -> In t l2.
Proof.
  intros Hseq Hct Htn.
  assert (Hc : c = length l1).
  { assert (Hlen : length l1 < n).
    { rewrite <- (length_seq n 0), Hseq, length_app. simpl. lia. }
    assert (N : nth (length l1) (seq 0 n) 0 = 0 + length l1)
      by (apply seq_nth; exact Hlen).
    rewrite Hseq, nth_middle in N. simpl in N. exact N. }
  assert (Hl2 : l2 = seq (S c) (n - S c)).
  { change (seq (S c) (n - S c)) with (seq (0 + S c) (n - S c)).
    rewrite <- (skipn_seq (S c) 0 n), Hseq, Hc, skipn_app.
    replace (S (length l1) - length l1) with 1 by lia.
    rewrite (skipn_all2 l1) by lia. reflexivity. }
  rewrite Hl2. apply in_seq. lia.
Qed.

(** X7. The candidate that the test loop ends with is an index of [points]
    other than the anchor, and no test point of a larger index (the anchor
    apart) makes a right turn against it: the loop is a single pass, and
    what it guarantees of the final candidate is about the points tested
    after it was chosen. A cleared flag stays cleared. *)
Theorem refine_candidate_beats_later_points (points : list point)
    (convex_hull : list nat) (e c0 : nat) (apc : bool) :
  c0 < length points -> c0 <> e ->
  let c := fst (refine_candidate points convex_hull e (c0, apc)) in
  c < length points /\ c <> e /\
  (forall t, c < t -> t < length points -> t <> e ->
     right_turn (find_orientation
                   (new_triplet (at_index points e) (at_index points t)
                                (at_index points c))) = false) /\
  (snd (refine_candidate points convex_hull e (c0, apc)) = true ->
   apc = true).
Proof.
  intros Hc0 Hce c.
  destruct (refine_candidate_bound points convex_hull e c0 apc Hc0 Hce)
    as [Hc Hne].
  split; [exact Hc|]. split; [exact Hne|]. split.
  - intros t Hct Htn Hte. subst c. unfold refine_candidate in *.
    destruct (fold_test_one_last_change points convex_hull e
                (seq 0 (length points)) c0 apc)
      as [[E Hall]|(l1 & l2 & Hseq & Hall)].
    + rewrite E in *. apply Hall; [apply in_seq; lia|assumption|lia].
    + apply Hall; [|assumption|lia].
      exact (seq_after _ _ _ _ _ Hseq Hct Htn).
  - unfold refine_candidate. clear.
    generalize (seq 0 (length points)) as ts. intros ts. revert c0 apc.
    induction ts as [|t ts IH]; intros c0 apc; cbn [fold_left];
      [intros H; exact H|].
    intros H.
    destruct (test_one points convex_hull e (c0, apc) t) as [c1 apc1] eqn:E.
    apply IH in H. subst apc1. unfold test_one in E.
    destruct (negb (t =? c0) && negb (t =? e)); [|congruence].
    injection E as _ E.
    destruct (negb (collinearity _)); [discriminate|now symmetry].
Qed.

(** The theorem on [collinear4], from the anchor [(0,0)] with the drawn
    candidate [(3,0)]: the loop ends with [(1,0)], which neither [(2,0)]
    nor [(3,0)] makes a right turn against. *)
Lemma refine_candidate_beats_later_points_witness :
  refine_candidate collinear4 [0] 0 (3, true) = (1, true) /\
  let c := fst (refine_candidate collinear4 [0] 0 (3, true)) in
  c < 4 /\ c <> 0 /\
  (forall t, c < t -> t < 4 -> t <> 0 ->
     right_turn (find_orientation
                   (new_triplet (at_index collinear4 0) (at_index collinear4 t)
                                (at_index collinear4 c))) = false) /\
  (snd (refine_candidate collinear4 [0] 0 (3, true)) = true -> true = true).
Proof.
  split; [reflexivity|].
  apply (refine_candidate_beats_later_points collinear4 [0] 0 3 true).
  - simpl. lia.
  - discriminate.
Defined.

(** ** Output assembly, on any index sequence *)

Lemma skipn_nth_cons (l : list nat) :
  forall i, i < length l -> skipn i l = nth i l 0 :: skipn (S i) l.
Proof.
  induction l as [|a l IH]; intros i Hi; simpl in Hi; [lia|].
  destruct i as [|i]; [reflexivity|]. simpl. apply IH. lia.
Qed.

Lemma rebuild_loop_prefix points convex_hull :
  forall todo i acc,
  i + todo = length convex_hull ->
  exists k, k <= todo /\ (i = 0 -> 0 < todo -> 0 < k) /\
    rebuild_loop points convex_hull i todo acc
    = acc ++ map (at_index points) (firstn k (skipn i convex_hull)).
Proof.
  induction todo as [|todo IH]; intros i acc Hlen.
  - exists 0. split; [lia|]. split; [lia|]. simpl. now rewrite app_nil_r.
  - cbn [rebuild_loop].
    destruct ((i =? 0) || negb (found (nth i convex_hull 0)
                                      (firstn (i - 1) convex_hull))) eqn:T.
    + destruct (IH (S i) (acc ++ [at_index points (nth i convex_hull 0)])
                  ltac:(lia)) as (k & Hk & _ & Hrun).
      exists (S k). split; [lia|]. split; [lia|].
      rewrite Hrun, (skipn_nth_cons convex_hull i) by lia.
      cbn [firstn map]. now rewrite <- app_assoc.
    + exists 0. split; [lia|]. split.
      * intros -> _. discriminate.
      * simpl. now rewrite app_nil_r.
Qed.

(** X8. Whatever the index sequence, the degenerate branch returns a
    prefix of what the other branch returns for it: the points of the first
    [k] indices, with [k >= 1] unless the sequence is empty. *)
Theorem degenerate_output_is_prefix (points : list point)
    (convex_hull : list nat) :
  exists k, k <= length convex_hull /\
    (convex_hull <> [] -> 1 <= k) /\
    hull_points points convex_hull true
    = firstn k (hull_points points convex_hull false).
Proof.
  destruct (rebuild_loop_prefix points convex_hull (length convex_hull) 0 []
              eq_refl) as (k & Hk & Hpos & Hrun).
  exists k. split; [exact Hk|]. split.
  - intros Hne. apply Hpos; [reflexivity|].
    destruct convex_hull; [congruence|simpl; lia].
  - unfold hull_points. simpl negb. cbv iota.
    rewrite Hrun. simpl. now rewrite firstn_map.
Qed.

(** ** [find_convex_hull] and [jarvis_march], on every input *)

Section Results.

Variable rng : Type.
Variable rand : rng -> Z * rng.
Variable srand : Z -> rng.

(** The indices behind the returned points. *)
Lemma find_convex_hull_indices fuel points g out g' :
  find_convex_hull rand fuel points g = Some (out, g') ->
  exists idxs,
    out = map (at_index points) idxs /\
    Forall (fun i => i < length points) idxs /\
    length idxs <= S (length points) /\
    (length points <= 2 -> length idxs = length points) /\
    (3 <= length points -> 2 <= length idxs) /\
    (points <> [] ->
     hd_error idxs = Some (find_leftmost_point infinity points)).
Proof.
  intros Hrun.
  destruct points as [|p0 [|p1 [|p2 rest]]].
  - injection Hrun as <- _. exists []. repeat split; simpl; auto; try lia.
    congruence.
  - injection Hrun as <- _. exists [0].
    pose proof (find_leftmost_point_bound infinity [p0] ltac:(discriminate))
      as B. simpl in B.
    repeat split; simpl; auto; try lia.
    intros _. f_equal. lia.
  - unfold find_convex_hull in Hrun. cbn [length] in Hrun.
    injection Hrun as <- _.
    pose proof (find_leftmost_point_bound infinity [p0; p1]
                  ltac:(discriminate)) as B.
    exists [find_leftmost_point infinity [p0; p1];
            if find_leftmost_point infinity [p0; p1] =? 0 then 1 else 0].
    split; [reflexivity|].
    split; [|repeat split; simpl; auto; lia].
    constructor; [exact B|]. constructor; [|constructor].
    destruct (_ =? 0); simpl; lia.
  - set (points := p0 :: p1 :: p2 :: rest) in *.
    assert (Hlen : 3 <= length points) by (simpl; lia).
    assert (Hne : points <> []) by discriminate.
    unfold find_convex_hull in Hrun.
    change (length points) with (S (S (S (length rest)))) in Hrun.
    cbv iota in Hrun.
    destruct (hull_walk rand fuel points g) as [[[h apc] g1]|] eqn:Hwalk;
      [|discriminate].
    destruct (hull_walk_output rng rand points fuel g h apc g1 Hlen Hwalk)
      as (distinct & (Hhd & Hlen2 & Hnd & Hlt & Hshape) & Hout).
    unfold find_convex_hull in Hout. rewrite Hwalk in Hout.
    change (length points) with (S (S (S (length rest)))) in Hout.
    cbv iota in Hout. rewrite Hout in Hrun. injection Hrun as <- _.
    clear Hout Hwalk. clearbody points.
    assert (Hd : length distinct <= length points).
    { apply Nat.le_trans with (length (seq 0 (length points)));
        [|rewrite length_seq; lia].
      apply NoDup_incl_length; [assumption|].
      intros i Hi. apply in_seq.
      rewrite Forall_forall in Hlt. specialize (Hlt i Hi). lia. }
    assert (Hh : Forall (fun i => i < length points) h /\
                 2 <= length h <= S (length points) /\
                 hd_error h = hd_error distinct).
    { destruct Hshape as [->|(c & -> & Hin & _)]; [repeat split; auto|].
      split; [|split].
      - apply Forall_app. split; [assumption|]. constructor; [|constructor].
        rewrite Forall_forall in Hlt. now apply Hlt.
      - rewrite length_app. simpl. lia.
      - destruct distinct; [simpl in Hlen2; lia|reflexivity]. }
    destruct Hh as (Hh1 & Hh2 & Hh3).
    assert (Hstart : hd_error distinct
                     = Some (find_leftmost_point infinity points)).
    { destruct distinct; [simpl in Hlen2; lia|]. simpl in *. now f_equal. }
    exists (if apc then distinct else h).
    split; [reflexivity|].
    destruct apc; repeat split; auto; try lia; try congruence.
Qed.

(** X9. What [find_convex_hull] returns is empty on the empty input only,
    starts with the point that [find_leftmost_point] selects, has as many
    points as the input when the input has two or fewer, and between two and
    [points.size() + 1] points otherwise. *)
Theorem find_convex_hull_starts_leftmost (fuel : nat) (points : list point)
    (g : rng) (out : list point) (g' : rng) :
  find_convex_hull rand fuel points g = Some (out, g') ->
  (out = [] <-> points = []) /\
  (points <> [] ->
   hd_error out
   = Some (at_index points (find_leftmost_point infinity points))) /\
  (length points <= 2 -> length out = length points) /\
  (3 <= length points -> 2 <= length out <= S (length points)).
Proof.
  intros Hrun.
  destruct (find_convex_hull_indices _ _ _ _ _ Hrun)
    as (idxs & -> & Hlt & Hmax & Hsmall & Hbig & Hhd).
  rewrite length_map. split; [|split; [|split]].
  - split.
    + intros E. apply map_eq_nil in E. subst idxs.
      destruct (Nat.le_gt_cases (length points) 2) as [H|H].
      * specialize (Hsmall H). destruct points; [reflexivity|discriminate].
      * specialize (Hbig H). simpl in Hbig. lia.
    + intros ->. specialize (Hsmall ltac:(simpl; lia)).
      destruct idxs; [reflexivity|discriminate].
  - intros Hne. specialize (Hhd Hne).
    destruct idxs; [discriminate|]. simpl in *. congruence.
  - exact Hsmall.
  - intros H. split; [now apply Hbig|exact Hmax].
Qed.

Lemma read_points_x x_coords :
  forall y_coords points,
  read_points x_coords y_coords = Some points ->
  map x points = x_coords /\ length x_coords <= length y_coords.
Proof.
  induction x_coords as [|xi xs IH]; intros y_coords points Hread.
  - injection Hread as <-. split; [reflexivity|simpl; lia].
  - destruct y_coords as [|yi ys]; [discriminate|]. simpl in Hread.
    destruct (read_points xs ys) as [pts|] eqn:E; [|discriminate].
    injection Hread as <-. destruct (IH _ _ E) as [H1 H2].
    simpl. rewrite H1. split; [reflexivity|lia].
Qed.

Lemma read_points_short x_coords :
  forall y_coords,
  read_points x_coords y_coords = None <-> length y_coords < length x_coords.
Proof.
  induction x_coords as [|xi xs IH]; intros y_coords.
  - simpl. split; [discriminate|lia].
  - destruct y_coords as [|yi ys]; simpl.
    + split; [lia|reflexivity].
    + rewrite <- Nat.succ_lt_mono, <- IH.
      destruct (read_points xs ys); split; congruence.
Qed.

(** X10. When [y] is at least as long as [x] and [jarvis_march] returns,
    every returned value is one of the values of [x], there are at most
    [x.size() + 1] of them, none only when [x] is empty, and, if some value
    of [x] is below [+infinity], the first returned value is a least value
    of [x]: no value of [x] is strictly below it. *)
Theorem jarvis_march_returns_values_of_x (fuel : nat)
    (x_coords y_coords : list float) (g : rng) (hull_x : list float)
    (g' : rng) :
  length x_coords <= length y_coords ->
  jarvis_march rand srand fuel x_coords y_coords g = Returns (hull_x, g') ->
  Forall (fun v => In v x_coords) hull_x /\
  length hull_x <= S (length x_coords) /\
  (hull_x = [] <-> x_coords = []) /\
  ((exists v, In v x_coords /\ (v <? infinity)%float = true) ->
   exists v0 rest, hull_x = v0 :: rest /\
     forall v, In v x_coords -> (v <? v0)%float = false).
Proof.
  unfold jarvis_march. intros Hle Hrun.
  destruct (read_points x_coords y_coords) as [points|] eqn:Hread;
    [|discriminate].
  destruct (find_convex_hull rand fuel points (srand 10)) as [[hull s]|]
    eqn:Hhull; [|discriminate].
  injection Hrun as <- <-.
  destruct (read_points_x _ _ _ Hread) as [Hx _].
  destruct (find_convex_hull_indices _ _ _ _ _ Hhull)
    as (idxs & -> & Hlt & Hmax & Hsmall & Hbig & Hhd).
  assert (Hn : length points = length x_coords)
    by (rewrite <- Hx; now rewrite length_map).
  assert (Hat : forall i, i < length points ->
                  In (x (at_index points i)) x_coords).
  { intros i Hi. rewrite <- Hx. apply in_map. now apply nth_In. }
  split; [|split; [|split]].
  - rewrite map_map. apply Forall_map. revert Hlt. apply Forall_impl.
    exact Hat.
  - rewrite !length_map. lia.
  - split.
    + intros E. apply map_eq_nil, map_eq_nil in E. subst idxs.
      destruct (Nat.le_gt_cases (length points) 2) as [H|H].
      * specialize (Hsmall H). rewrite Hn in Hsmall.
        destruct x_coords; [reflexivity|discriminate].
      * specialize (Hbig H). simpl in Hbig. lia.
    + intros ->. simpl in Hn. specialize (Hsmall ltac:(lia)).
      rewrite Hn in Hsmall. destruct idxs; [reflexivity|discriminate].
  - intros (v & Hv & Hfin).
    assert (Hne : points <> []).
    { intros ->. simpl in Hx. subst x_coords. destruct Hv. }
    specialize (Hhd Hne). destruct idxs as [|i0 idxs]; [discriminate|].
    injection Hhd as ->. simpl. eexists. eexists. split; [reflexivity|].
    rewrite <- Hx in Hv. apply in_map_iff in Hv.
    destruct Hv as (p & <- & Hp).
    destruct (In_nth _ _ (Point 0 0) Hp) as (j & Hj & Ej).
    unfold find_leftmost_point.
    destruct (leftmost_loop_cases points 0 infinity 0)
      as [[_ Hall]|(k & Hk & -> & _ & Hmin & _)].
    + specialize (Hall j Hj). unfold at_index in Hall.
      rewrite Ej in Hall. congruence.
    + intros w Hw. rewrite <- Hx in Hw. apply in_map_iff in Hw.
      destruct Hw as (q & <- & Hq).
      destruct (In_nth _ _ (Point 0 0) Hq) as (j' & Hj' & Ej').
      specialize (Hmin j' Hj'). unfold at_index in *. simpl.
      now rewrite Ej' in Hmin.
Qed.

(** X11. [jarvis_march] reads [y] past its end exactly when [y] is shorter
    than [x], whatever the values, the fuel and the generator; nothing
    guards the read. *)
Theorem jarvis_march_out_of_bounds (fuel : nat)
    (x_coords y_coords : list float) (g : rng) :
  jarvis_march rand srand fuel x_coords y_coords g = OutOfBounds <->
  length y_coords < length x_coords.
Proof.
  rewrite <- read_points_short. unfold jarvis_march.
  destruct (read_points x_coords y_coords) as [points|].
  - destruct (find_convex_hull rand fuel points (srand 10)) as [[hull s]|];
      split; discriminate.
  - split; reflexivity.
Qed.

End Results.

(** [find_convex_hull] on [skewed5] with the draws of glibc after
    [srand(10)]: five points, the first of them [(0,1)]. *)
Lemma find_convex_hull_starts_leftmost_witness :
  let out := [Point 0 1; Point 0 2; Point 1 0; Point 0 0; Point 0 2] in
  (out = [] <-> skewed5 = []) /\
  (skewed5 <> [] ->
   hd_error out
   = Some (at_index skewed5 (find_leftmost_point infinity skewed5))) /\
  (length skewed5 <= 2 -> length out = length skewed5) /\
  (3 <= length skewed5 -> 2 <= length out <= S (length skewed5)).
Proof.
  apply (find_convex_hull_starts_leftmost _ Glibc.rand 10 skewed5
           (Glibc.srand 10) _
           (snd (Glibc.rand (advance _ Glibc.rand 5 (Glibc.srand 10))))).
  vm_compute. reflexivity.
Defined.

(** [jarvis_march] on the square with an interior point, with glibc's
    generator. *)
Lemma jarvis_march_returns_values_of_x_witness :
  let x_coords := [0; 0; 2; 2; 1]%float in
  let y_coords := [0; 2; 2; 0; 1]%float in
  let hull_x := [0; 0; 2; 2]%float in
  Forall (fun v => In v x_coords) hull_x /\
  length hull_x <= S (length x_coords) /\
  (hull_x = [] <-> x_coords = []) /\
  ((exists v, In v x_coords /\ (v <? infinity)%float = true) ->
   exists v0 rest, hull_x = v0 :: rest /\
     forall v, In v x_coords -> (v <? v0)%float = false).
Proof.
  apply (jarvis_march_returns_values_of_x _ Glibc.rand Glibc.srand 10
           [0; 0; 2; 2; 1]%float [0; 2; 2; 0; 1]%float [] _
           (snd (Glibc.rand (advance _ Glibc.rand 5 (Glibc.srand 10))))).
  - simpl. lia.
  - vm_compute. reflexivity.
Defined.
